(** * Wayfire output rendering: a shallow embedding of the frame pacer, the
    depth-buffer cache, the effect-hook registry, the transformer stack, the
    2D/3D view transformers and the crossfade blend curve.

    Sources embedded here:
    - [src/output/render-manager.cpp]: [effect_hook_manager_t],
      [postprocessing_manager_t], [depth_buffer_manager_t],
      [repaint_delay_manager_t], [impl::do_direct_scanout];
    - [src/view/view-3d.cpp]: [transform_manager_node_t::_add_transformer],
      [view_2d_transformer_t], [view_3d_transformer_t];
    - [plugins/grid/wayfire/plugins/crossfade.hpp]:
      [crossfade_render_instance_t::render].

    Conventions.  C++ [int], [int32_t] and [int64_t] values are integers in
    [Z]; signed overflow is undefined behaviour in C++, so no wrap-around is
    written ([PacerSpec] shows that the delay, the increase window and the
    backoff factor stay in small ranges).  C++ [double] and [float] values
    are real numbers. *)

From Stdlib Require Import ZArith Reals Lra Lia Sorted.
From stdpp Require Import base list gmap strings.

#[local] Open Scope Z_scope.

(** ** Helpers shared by the modules *)

(** Modelled from the spec: [wf::clamp] is declared in a header of the
    repository that is outside the sources at hand; it bounds [value] to
    [[lo, hi]] the way [std::clamp] does. *)
Definition clamp (value lo hi : Z) : Z :=
  if value <? lo then lo else if hi <? value then hi else value.

(** ** The frame pacer: [repaint_delay_manager_t] *)

Module Pacer.

(** The two options the pacer reads: [core/max_render_time] and
    [workarounds/dynamic_repaint_delay]. *)
Record options := {
  max_render_time : Z;
  dynamic_delay : bool;
}.

Record repaint_delay_manager_t := {
  delay : Z;
  increase_window : Z;
  last_increase : Z;
  expand_inc_window_on_miss : Z;
  consecutive_decrease : Z;
  last_pageflip : Z;
  refresh_nsec : Z;
}.

Definition MIN_INCREASE_WINDOW : Z := 200.
Definition MAX_INCREASE_WINDOW : Z := 30000.

(** The state a freshly constructed manager has (the member initialisers);
    [refresh_nsec] has no initialiser and is a parameter. *)
Definition initial (refresh : Z) : repaint_delay_manager_t :=
  {| delay := 0;
     increase_window := MIN_INCREASE_WINDOW;
     last_increase := 0;
     expand_inc_window_on_miss := 0;
     consecutive_decrease := 1;
     last_pageflip := -1;
     refresh_nsec := refresh |}.

(** [refresh_nsec / 1e6] converted to an integer: the conversion truncates
    towards zero. *)
Definition refresh_msec (s : repaint_delay_manager_t) : Z :=
  Z.quot (refresh_nsec s) 1000000.

Definition config_delay (o : options) (s : repaint_delay_manager_t) : Z :=
  Z.max 0 (refresh_msec s - max_render_time o).

(** The pair [(min, max)] that [update_delay] clamps into. *)
Definition delay_bounds (o : options) (s : repaint_delay_manager_t) : Z * Z :=
  if max_render_time o =? -1 then (0, 0)
  else if negb (dynamic_delay o) then (config_delay o s, config_delay o s)
  else (0, config_delay o s).

Definition set_delay (d : Z) (s : repaint_delay_manager_t) :=
  {| delay := d;
     increase_window := increase_window s;
     last_increase := last_increase s;
     expand_inc_window_on_miss := expand_inc_window_on_miss s;
     consecutive_decrease := consecutive_decrease s;
     last_pageflip := last_pageflip s;
     refresh_nsec := refresh_nsec s |}.

Definition update_delay (o : options) (delta : Z)
    (s : repaint_delay_manager_t) : repaint_delay_manager_t :=
  let '(min, max) := delay_bounds o s in
  set_delay (clamp (delay s + delta) min max) s.

Definition reset_increase_timer (now : Z) (s : repaint_delay_manager_t) :=
  {| delay := delay s;
     increase_window := increase_window s;
     last_increase := now;
     expand_inc_window_on_miss := expand_inc_window_on_miss s;
     consecutive_decrease := consecutive_decrease s;
     last_pageflip := last_pageflip s;
     refresh_nsec := refresh_nsec s |}.

Definition skip_frame (s : repaint_delay_manager_t) :=
  {| delay := delay s;
     increase_window := increase_window s;
     last_increase := last_increase s;
     expand_inc_window_on_miss := expand_inc_window_on_miss s;
     consecutive_decrease := consecutive_decrease s;
     last_pageflip := -1;
     refresh_nsec := refresh_nsec s |}.

Definition set_increase_window (w : Z) (s : repaint_delay_manager_t) :=
  {| delay := delay s;
     increase_window := w;
     last_increase := last_increase s;
     expand_inc_window_on_miss := expand_inc_window_on_miss s;
     consecutive_decrease := consecutive_decrease s;
     last_pageflip := last_pageflip s;
     refresh_nsec := refresh_nsec s |}.

Definition set_expand (e : Z) (s : repaint_delay_manager_t) :=
  {| delay := delay s;
     increase_window := increase_window s;
     last_increase := last_increase s;
     expand_inc_window_on_miss := e;
     consecutive_decrease := consecutive_decrease s;
     last_pageflip := last_pageflip s;
     refresh_nsec := refresh_nsec s |}.

Definition set_consecutive_decrease (c : Z) (s : repaint_delay_manager_t) :=
  {| delay := delay s;
     increase_window := increase_window s;
     last_increase := last_increase s;
     expand_inc_window_on_miss := expand_inc_window_on_miss s;
     consecutive_decrease := c;
     last_pageflip := last_pageflip s;
     refresh_nsec := refresh_nsec s |}.

Definition set_last_pageflip (t : Z) (s : repaint_delay_manager_t) :=
  {| delay := delay s;
     increase_window := increase_window s;
     last_increase := last_increase s;
     expand_inc_window_on_miss := expand_inc_window_on_miss s;
     consecutive_decrease := consecutive_decrease s;
     last_pageflip := t;
     refresh_nsec := refresh_nsec s |}.

(** [int64_t(refresh * 1.5)]: the product is exact in a double, the
    conversion truncates. *)
Definition on_time_thresh (s : repaint_delay_manager_t) : Z :=
  Z.quot (refresh_msec s * 3) 2.

(** [int64_t(increase_window * 0.75)]. *)
Definition shrink_window (w : Z) : Z := Z.quot (w * 3) 4.

(** [start_frame].  [now] is the value [get_current_time()] returns; the
    millisecond clock is read as one value during the call. *)
Definition start_frame (o : options) (now : Z)
    (s : repaint_delay_manager_t) : repaint_delay_manager_t :=
  if last_pageflip s =? -1 then set_last_pageflip now s
  else
    let last_frame_len := now - last_pageflip s in
    let s1 :=
      if last_frame_len <=? on_time_thresh s then
        let s2 :=
          if increase_window s <=? now - last_increase s then
            let s3 := set_increase_window
                        (clamp (shrink_window (increase_window s))
                               MIN_INCREASE_WINDOW MAX_INCREASE_WINDOW) s in
            let s4 := update_delay o 1 s3 in
            let s5 := reset_increase_timer now s4 in
            set_expand 20 s5
          else set_expand (expand_inc_window_on_miss s - 1) s in
        set_consecutive_decrease 1 s2
      else
        let s2 := update_delay o (- consecutive_decrease s) s in
        let s3 := set_consecutive_decrease
                    (clamp (consecutive_decrease s2 * 2) 1 32) s2 in
        let s4 :=
          if 0 <=? expand_inc_window_on_miss s3 then
            set_increase_window
              (clamp (increase_window s3 * 2)
                     MIN_INCREASE_WINDOW MAX_INCREASE_WINDOW) s3
          else s3 in
        reset_increase_timer now s4 in
    set_last_pageflip now s1.

Definition get_delay (s : repaint_delay_manager_t) : Z := delay s.

(** The [on_present] listener stores the refresh interval the output
    reports. *)
Definition on_present (refresh : Z) (s : repaint_delay_manager_t) :=
  {| delay := delay s;
     increase_window := increase_window s;
     last_increase := last_increase s;
     expand_inc_window_on_miss := expand_inc_window_on_miss s;
     consecutive_decrease := consecutive_decrease s;
     last_pageflip := last_pageflip s;
     refresh_nsec := refresh |}.

(** The ranges the window and the backoff factor are kept in. *)
Definition well_formed (s : repaint_delay_manager_t) : Prop :=
  MIN_INCREASE_WINDOW <= increase_window s <= MAX_INCREASE_WINDOW
  /\ 1 <= consecutive_decrease s <= 32.

(** The pacer driven by a list of wake-up times, for examples. *)
Definition run (o : options) (times : list Z) (s : repaint_delay_manager_t) :=
  fold_left (fun st t => start_frame o t st) times s.

End Pacer.

(** ** The depth-buffer cache: [depth_buffer_manager_t] *)

Module DepthBuffer.

(** The part of the GL context the cache acts on: which texture names are
    alive, and which texture is the depth attachment of a framebuffer.
    [is_gles] says whether the renderer is the GLES one, which is what
    [run_in_context_if_gles] tests before it runs its argument. *)
Record gl_state := {
  is_gles : bool;
  textures : gset N;
  depth_attachment : gmap Z N;
}.

(** [(GLuint) -1], the value of [tex] in an entry that owns no texture. *)
Definition NO_TEXTURE : N := 4294967295.

Record depth_buffer_t := {
  tex : N;
  attached_to : Z;
  width : Z;
  height : Z;
  last_used : Z;
}.

(** [depth_buffer_t{}]: the default member initialisers. *)
Definition empty_buffer : depth_buffer_t :=
  {| tex := NO_TEXTURE; attached_to := -1; width := 0; height := 0;
     last_used := 0 |}.

Record depth_buffer_manager_t := {
  required_counter : Z;
  buffers : list depth_buffer_t;
}.

Definition MAX_BUFFERS : nat := 3.

(** A default-constructed manager. *)
Definition initial : depth_buffer_manager_t :=
  {| required_counter := 0; buffers := [] |}.

(** [glDeleteTextures(1, &name)]: the name stops being alive; a name that
    is not alive is ignored. *)
Definition glDeleteTextures (name : N) (gl : gl_state) : gl_state :=
  {| is_gles := is_gles gl;
     textures := textures gl ∖ {[ name ]};
     depth_attachment := depth_attachment gl |}.

(** [glGenTextures(1, &name)]: a name that was not in use (and is not 0). *)
Definition glGenTextures (gl : gl_state) : N * gl_state :=
  let name := fresh ({[ 0%N ]} ∪ textures gl) in
  (name, {| is_gles := is_gles gl;
            textures := {[ name ]} ∪ textures gl;
            depth_attachment := depth_attachment gl |}).

(** [glFramebufferTexture2D(GL_FRAMEBUFFER, GL_DEPTH_ATTACHMENT, ..)] on the
    framebuffer bound just before. *)
Definition glFramebufferTexture2D (fb : Z) (name : N) (gl : gl_state) :=
  {| is_gles := is_gles gl;
     textures := textures gl;
     depth_attachment := <[ fb := name ]> (depth_attachment gl) |}.

Definition free_buffer (buffer : depth_buffer_t) (gl : gl_state) : gl_state :=
  if decide (tex buffer = NO_TEXTURE) then gl
  else glDeleteTextures (tex buffer) gl.

(** [free_all_buffers]: every entry is passed to [free_buffer]; the vector
    itself and the fields of its entries are not written. *)
Definition free_all_buffers (gl : gl_state) (m : depth_buffer_manager_t)
    : gl_state * depth_buffer_manager_t :=
  if is_gles gl
  then (fold_left (fun g b => free_buffer b g) (buffers m) gl, m)
  else (gl, m).

(** The body of [attach_buffer] on the entry at index [i]; [now] is the
    value of [get_current_time()]. *)
Definition attach_buffer (i : nat) (fb w h now : Z) (gl : gl_state)
    (bufs : list depth_buffer_t) : gl_state * list depth_buffer_t :=
  match bufs !! i with
  | None => (gl, bufs)
  | Some buffer =>
      if decide (attached_to buffer = fb /\ width buffer = w
                 /\ height buffer = h)
      then (gl, bufs)
      else
        let gl1 := free_buffer buffer gl in
        let '(name, gl2) := glGenTextures gl1 in
        let gl3 := glFramebufferTexture2D fb name gl2 in
        (gl3, <[ i := {| tex := name; attached_to := fb; width := w;
                         height := h; last_used := now |} ]> bufs)
  end.

(** The eviction loop of [find_buffer]: [best] is the index [oldest] points
    to, [i] the index of the head of [rest]. *)
Fixpoint oldest_from (rest : list depth_buffer_t) (i best : nat)
    (best_used : Z) : nat :=
  match rest with
  | [] => best
  | buffer :: rest' =>
      if last_used buffer <? best_used
      then oldest_from rest' (S i) i (last_used buffer)
      else oldest_from rest' (S i) best best_used
  end.

Definition oldest (bufs : list depth_buffer_t) : nat :=
  match bufs with
  | [] => 0%nat
  | front :: _ => oldest_from bufs 0 0 (last_used front)
  end.

(** [find_buffer] returns a reference into [buffers]: here the index, with
    the vector as [push_back] may have left it. *)
Definition find_buffer (fb : Z) (bufs : list depth_buffer_t)
    : nat * list depth_buffer_t :=
  match list_find (fun b => attached_to b = fb) bufs with
  | Some (i, _) => (i, bufs)
  | None =>
      if decide (length bufs < MAX_BUFFERS)%nat
      then (length bufs, bufs ++ [empty_buffer])
      else (oldest bufs, bufs)
  end.

Definition ensure_depth_buffer (fb w h now : Z) (gl : gl_state)
    (m : depth_buffer_manager_t) : gl_state * depth_buffer_manager_t :=
  if decide (fb = 0 \/ required_counter m <= 0) then (gl, m)
  else
    let '(i, bufs) := find_buffer fb (buffers m) in
    let '(gl', bufs') := attach_buffer i fb w h now gl bufs in
    (gl', {| required_counter := required_counter m; buffers := bufs' |}).

Definition set_required (require : bool) (gl : gl_state)
    (m : depth_buffer_manager_t) : gl_state * depth_buffer_manager_t :=
  let m' := {| required_counter :=
                 required_counter m + (if require then 1 else -1);
               buffers := buffers m |} in
  if decide (required_counter m' <= 0) then free_all_buffers gl m'
  else (gl, m').

(** The calls a client of the cache can make, and a run of them. *)
Inductive call :=
  | Ensure (fb w h now : Z)
  | SetRequired (require : bool).

Definition step (st : gl_state * depth_buffer_manager_t) (c : call) :=
  match c with
  | Ensure fb w h now => ensure_depth_buffer fb w h now st.1 st.2
  | SetRequired require => set_required require st.1 st.2
  end.

Definition run (calls : list call) (st : gl_state * depth_buffer_manager_t) :=
  fold_left step calls st.

End DepthBuffer.

(** ** Effect hooks, postprocessing and the direct scan-out test *)

Module Hooks.

(** Modelled from the spec: [wf::safe_list_t] is declared in a header of the
    repository that is outside the sources at hand.  It is an ordered list
    that tolerates removal during iteration; the three operations used by
    the managers are a list's: append, number of elements, and removal of
    every element equal to a value. *)
Definition safe_list_t (A : Type) := list A.

Definition push_back {A} (x : A) (l : safe_list_t A) : safe_list_t A :=
  l ++ [x].

Definition size {A} (l : safe_list_t A) : nat := length l.

Fixpoint remove_all {A} `{EqDecision A} (x : A) (l : safe_list_t A)
    : safe_list_t A :=
  match l with
  | [] => []
  | y :: l' => if decide (y = x) then remove_all x l'
               else y :: remove_all x l'
  end.

(** [output_effect_type_t]; [OUTPUT_EFFECT_TOTAL] is the number of stages. *)
Inductive output_effect_type_t :=
  | OUTPUT_EFFECT_PRE
  | OUTPUT_EFFECT_DAMAGE
  | OUTPUT_EFFECT_OVERLAY
  | OUTPUT_EFFECT_POST.

#[export] Instance output_effect_type_eq_dec : EqDecision output_effect_type_t.
Proof. solve_decision. Defined.

(** The indices [0 .. OUTPUT_EFFECT_TOTAL - 1] in the order of the loop in
    [rem_effect]. *)
Definition all_effect_types : list output_effect_type_t :=
  [OUTPUT_EFFECT_PRE; OUTPUT_EFFECT_DAMAGE; OUTPUT_EFFECT_OVERLAY;
   OUTPUT_EFFECT_POST].

(** An [effect_hook_t*]: the address of the hook. *)
Definition effect_hook_ptr := N.
Definition post_hook_ptr := N.

(** [effects[OUTPUT_EFFECT_TOTAL]]: one list per stage. *)
Record effect_hook_manager_t := {
  effects : output_effect_type_t -> safe_list_t effect_hook_ptr;
}.

Definition no_effects : effect_hook_manager_t :=
  {| effects := fun _ => [] |}.

(** Assignment to [effects[type]]. *)
Definition set_effects (type : output_effect_type_t)
    (l : safe_list_t effect_hook_ptr) (m : effect_hook_manager_t) :=
  {| effects := fun t => if decide (t = type) then l else effects m t |}.

Definition add_effect (hook : effect_hook_ptr) (type : output_effect_type_t)
    (m : effect_hook_manager_t) : effect_hook_manager_t :=
  set_effects type (push_back hook (effects m type)) m.

Definition can_scanout (m : effect_hook_manager_t) : bool :=
  (size (effects m OUTPUT_EFFECT_OVERLAY) =? 0)%nat
  && (size (effects m OUTPUT_EFFECT_POST) =? 0)%nat.

Definition rem_effect (hook : effect_hook_ptr) (m : effect_hook_manager_t)
    : effect_hook_manager_t :=
  fold_left (fun m' i => set_effects i (remove_all hook (effects m' i)) m')
            all_effect_types m.

Record postprocessing_manager_t := {
  post_effects : safe_list_t post_hook_ptr;
}.

Definition add_post (hook : post_hook_ptr) (p : postprocessing_manager_t) :=
  {| post_effects := push_back hook (post_effects p) |}.

Definition rem_post (hook : post_hook_ptr) (p : postprocessing_manager_t) :=
  {| post_effects := remove_all hook (post_effects p) |}.

Definition post_can_scanout (p : postprocessing_manager_t) : bool :=
  (size (post_effects p) =? 0)%nat.

(** [scene::direct_scanout]: what a render instance answers to
    [try_scanout]. *)
Inductive direct_scanout := SKIP | OCCLUSION | SUCCESS.

(** [scene::try_scanout_from_list]; each instance is given by its answer. *)
Fixpoint try_scanout_from_list (instances : list direct_scanout)
    : direct_scanout :=
  match instances with
  | [] => SKIP
  | res :: rest =>
      match res with
      | SKIP => try_scanout_from_list rest
      | _ => res
      end
  end.

(** What [render_manager::impl::do_direct_scanout] reads. *)
Record impl := {
  output_inhibit_counter : Z;
  effects_manager : effect_hook_manager_t;
  postprocessing : postprocessing_manager_t;
  wlr_direct_scanout_allowed : bool;
  icc_color_transform : option N;
  env_allow_scanout : bool;
  render_instances : list direct_scanout;
}.

(** The local [can_scanout] of [do_direct_scanout]. *)
Definition impl_can_scanout (r : impl) : bool :=
  (output_inhibit_counter r =? 0)%Z
  && can_scanout (effects_manager r)
  && post_can_scanout (postprocessing r)
  && wlr_direct_scanout_allowed r
  && (match icc_color_transform r with None => true | Some _ => false end).

(** The scan-out attempt: [None] when [do_direct_scanout] returns before
    calling [try_scanout_from_list], otherwise the result of that call. *)
Definition scanout_attempt (r : impl) : option direct_scanout :=
  if negb (impl_can_scanout r) || negb (env_allow_scanout r) then None
  else Some (try_scanout_from_list (render_instances r)).

Definition do_direct_scanout (r : impl) : bool :=
  match scanout_attempt r with
  | Some SUCCESS => true
  | _ => false
  end.

End Hooks.

(** ** The transformer stack: [transform_manager_node_t] *)

Module TransformStack.

(** Scene nodes are named by their address. *)
Definition node_ptr := nat.

Record added_transformer_t := {
  node : node_ptr;
  z_order : Z;
  name : string;
}.

(** The transformer list of one manager node [self], and the children list
    of every node of the scene (a node without an entry has no children). *)
Record transform_manager_node_t := {
  self : node_ptr;
  transformers : list added_transformer_t;
  children : gmap node_ptr (list node_ptr);
}.

Definition get_children (n : node_ptr) (m : transform_manager_node_t)
    : list node_ptr :=
  default [] (children m !! n).

(** The [while] loop of [_add_transformer]: the number of leading entries
    whose z-order is smaller than [z]. *)
Fixpoint insert_position (ts : list added_transformer_t) (z : Z) : nat :=
  match ts with
  | [] => 0%nat
  | t :: rest => if z_order t <? z then S (insert_position rest z) else 0%nat
  end.

(** [transformers.insert(transformers.begin() + pos, x)]. *)
Definition vector_insert {A} (pos : nat) (x : A) (l : list A) : list A :=
  take pos l ++ x :: drop pos l.

(** [_add_transformer]; the two [damage_node] calls and the scene [update]
    notify the renderer and write neither the list nor the children. *)
Definition _add_transformer (transformer : node_ptr) (z : Z) (nm : string)
    (m : transform_manager_node_t) : transform_manager_node_t :=
  let pos := insert_position (transformers m) z in
  let parent :=
    match transformers m !! pos with
    | None => self m
    | Some t => node t
    end in
  let ts := vector_insert pos {| node := transformer; z_order := z;
                                 name := nm |} (transformers m) in
  let kids := get_children parent m in
  let c1 := <[ parent := [transformer] ]> (children m) in
  let c2 := <[ transformer := kids ]> c1 in
  {| self := self m; transformers := ts; children := c2 |}.

(** The order the list is kept in: ascending z-order. *)
Definition z_le (t1 t2 : added_transformer_t) : Prop :=
  z_order t1 <= z_order t2.

(** A run of insertions, first to last. *)
Definition add_all (ins : list added_transformer_t)
    (m : transform_manager_node_t) : transform_manager_node_t :=
  fold_left (fun m' t => _add_transformer (node t) (z_order t) (name t) m')
            ins m.

(** Following the spec's words, for comparison: the position before the
    first entry whose z-order is strictly greater than [z]. *)
Fixpoint spec_insert_position (ts : list added_transformer_t) (z : Z) : nat :=
  match ts with
  | [] => 0%nat
  | t :: rest =>
      if z <? z_order t then 0%nat else S (spec_insert_position rest z)
  end.

End TransformStack.

(** ** Geometry shared by the view transformers *)

Module Geometry.

#[local] Open Scope R_scope.

Record pointf_t := { px : R; py : R; }.

(** [wf::geometry_t]: an integer box. *)
Record geometry_t := { x : Z; y : Z; width : Z; height : Z; }.

Definition point_sub (a b : pointf_t) : pointf_t :=
  {| px := px a - px b; py := py a - py b |}.

Definition point_add (a b : pointf_t) : pointf_t :=
  {| px := px a + px b; py := py a + py b |}.

(** What locking the weak reference to the view gives: nothing for a view
    that is gone, the geometry of a toplevel, or the bounding box of the
    surface root node of another view. *)
Inductive view_ref :=
  | view_dead
  | view_toplevel (geometry : geometry_t)
  | view_other (surface_bbox : geometry_t).

Definition get_center_box (view : geometry_t) : pointf_t :=
  {| px := IZR (x view) + IZR (width view) / 2;
     py := IZR (y view) + IZR (height view) / 2 |}.

Definition get_center (view : view_ref) : pointf_t :=
  match view with
  | view_toplevel g => get_center_box g
  | view_other bbox => get_center_box bbox
  | view_dead => {| px := 0; py := 0 |}
  end.

End Geometry.

(** ** The 2D view transformer *)

Module View2D.

Import Geometry.
#[local] Open Scope R_scope.

(** The view and the values of the getters [get_scale_x], [get_scale_y],
    [get_angle], [get_translation_x] and [get_translation_y]. *)
Record view_2d_transformer_t := {
  view : view_ref;
  scale_x : R;
  scale_y : R;
  angle : R;
  translation_x : R;
  translation_y : R;
}.

Definition rotate_xy (p : pointf_t) (a : R) : pointf_t :=
  let cs := cos a in
  let sn := sin a in
  {| px := cs * px p - sn * py p; py := sn * px p + cs * py p |}.

Definition to_local (t : view_2d_transformer_t) (point : pointf_t) : pointf_t :=
  let midpoint := get_center (view t) in
  let r0 := point_sub point midpoint in
  let r1 := {| px := px r0 - translation_x t; py := py r0 - translation_y t |} in
  let r2 := rotate_xy r1 (angle t) in
  let r3 := {| px := px r2 / scale_x t; py := py r2 / scale_y t |} in
  point_add r3 midpoint.

Definition to_global (t : view_2d_transformer_t) (point : pointf_t) : pointf_t :=
  let midpoint := get_center (view t) in
  let r0 := point_sub point midpoint in
  let r1 := {| px := px r0 * scale_x t; py := py r0 * scale_y t |} in
  let r2 := rotate_xy r1 (- angle t) in
  let r3 := {| px := px r2 + translation_x t; py := py r2 + translation_y t |} in
  point_add r3 midpoint.

End View2D.

(** ** The 3D view transformer *)

Module View3D.

Import Geometry.
#[local] Open Scope R_scope.

(** A [glm::mat4], column-major as in glm: [m c r] is [m[c][r]], the entry
    in column [c] and row [r]. *)
Definition mat4 := nat -> nat -> R.

Definition mat4_mul (a b : mat4) : mat4 :=
  fun c r =>
    a 0%nat r * b c 0%nat + a 1%nat r * b c 1%nat
    + a 2%nat r * b c 2%nat + a 3%nat r * b c 3%nat.

(** [glm::scale(glm::mat4(1.0), {sx, sy, sz})]. *)
Definition glm_scale (sx sy sz : R) : mat4 :=
  fun c r =>
    if (c =? r)%nat then
      match c with
      | 0%nat => sx | 1%nat => sy | 2%nat => sz | _ => 1
      end
    else 0.

(** A [glm::dmat2] built from four scalars, column by column. *)
Record dmat2 := { m00 : R; m01 : R; m10 : R; m11 : R; }.

Definition glm_determinant (a : dmat2) : R :=
  m00 a * m11 a - m10 a * m01 a.

(** [glm::inverse] of a 2x2 matrix multiplies the adjugate by
    [1 / determinant]; the quotient does not exist for a zero determinant,
    which [None] records. *)
Definition glm_inverse (a : dmat2) : option dmat2 :=
  let d := glm_determinant a in
  if Req_dec_T d 0 then None
  else
    let one_over := 1 / d in
    Some {| m00 := m11 a * one_over; m01 := - m01 a * one_over;
            m10 := - m10 a * one_over; m11 := m00 a * one_over |}.

(** The product of a [dmat2] with a column vector. *)
Definition dmat2_apply (a : dmat2) (v : R * R) : R * R :=
  (m00 a * v.1 + m10 a * v.2, m01 a * v.1 + m11 a * v.2).

Record view_3d_transformer_t := {
  children_bounding_box : geometry_t;
  translation : mat4;
  view_proj : mat4;
  rotation : mat4;
  scaling : mat4;
}.

Definition get_center_relative_coords (view : geometry_t) (point : pointf_t)
    : pointf_t :=
  {| px := (px point - IZR (x view)) - IZR (width view) / 2;
     py := IZR (height view) / 2 - (py point - IZR (y view)) |}.

Definition get_absolute_coords_from_relative (view : geometry_t)
    (point : pointf_t) : pointf_t :=
  {| px := px point + IZR (x view) + IZR (width view) / 2;
     py := (IZR (height view) / 2 - py point) + IZR (y view) |}.

Definition calculate_total_transform (t : view_3d_transformer_t) : mat4 :=
  let bbox := children_bounding_box t in
  let scale := Rmax (IZR (Z.max (width bbox) (height bbox))) 1 in
  let depth_scale := glm_scale 1 1 (2 / scale) in
  mat4_mul (mat4_mul (mat4_mul (mat4_mul (translation t) (view_proj t))
                               depth_scale)
                     (rotation t))
           (scaling t).

(** The matrix [A] of [to_local] for the centre-relative point [p]. *)
Definition system_matrix (tr : mat4) (p : pointf_t) : dmat2 :=
  {| m00 := px p * tr 0%nat 3%nat - tr 0%nat 0%nat;
     m01 := py p * tr 0%nat 3%nat - tr 0%nat 1%nat;
     m10 := px p * tr 1%nat 3%nat - tr 1%nat 0%nat;
     m11 := py p * tr 1%nat 3%nat - tr 1%nat 1%nat |}.

Definition singular_threshold : R := 1 / 1000000.

Section ToLocal.

(** [wf::compositor_core_t::invalid_coordinate], a constant of the core that
    is declared outside the sources at hand. *)
Variable invalid_coordinate : R.

(** [to_local]; [None] would be a division by a zero determinant. *)
Definition to_local (t : view_3d_transformer_t) (point : pointf_t)
    : option pointf_t :=
  let wm_geom := children_bounding_box t in
  let p := get_center_relative_coords wm_geom point in
  let tr := calculate_total_transform t in
  let A := system_matrix tr p in
  if Rlt_dec (Rabs (glm_determinant A)) singular_threshold
  then Some {| px := invalid_coordinate; py := invalid_coordinate |}
  else
    let b := (tr 3%nat 0%nat - px p * tr 3%nat 3%nat,
              tr 3%nat 1%nat - py p * tr 3%nat 3%nat) in
    match glm_inverse A with
    | None => None
    | Some inv =>
        let res := dmat2_apply inv b in
        Some (get_absolute_coords_from_relative wm_geom
                {| px := res.1; py := res.2 |})
    end.

End ToLocal.

End View3D.

(** ** The crossfade overlay *)

Module Crossfade.

#[local] Open Scope R_scope.

(** [std::pow] on a base that is not negative, with a positive exponent:
    the only arguments [render] passes while the overlay alpha is in
    [[0, 1]].  (A negative base is outside this model.) *)
Definition std_pow (base exponent : R) : R :=
  if Rle_dec base 0 then 0 else Rpower base exponent.

Definition N : R := 2.

(** The value [ra] that [render] computes from [overlay_alpha]. *)
Definition blend (overlay_alpha : R) : R :=
  if Rlt_dec overlay_alpha (1 / 2)
  then std_pow (overlay_alpha * 2) (1 / N) / 2
  else std_pow ((overlay_alpha - 1 / 2) * 2) N / 2 + 1 / 2.

(** The opacity [render] passes to [add_texture] for the snapshot. *)
Definition render_opacity (overlay_alpha : R) : R :=
  1 - blend overlay_alpha.

(** Following the spec's words, for comparison: the two pieces of the curve
    for [N = 2], written with the square root and the square, and the curve
    made of them. *)
Definition lower_piece (a : R) : R := sqrt (a * 2) / 2.

Definition upper_piece (a : R) : R :=
  ((a - 1 / 2) * 2) * ((a - 1 / 2) * 2) / 2 + 1 / 2.

Definition spec_blend (a : R) : R :=
  if Rlt_dec a (1 / 2) then lower_piece a else upper_piece a.

End Crossfade.

(** ** The frame callback of [render_manager::impl] *)

Module FrameCallback.

Import Pacer.

(** What the [on_frame] listener does with the output after it asked the
    pacer: paint at once, or arm the repaint timer. *)
Inductive frame_action :=
  | frame_ignored
  | paint_now
  | paint_after (timeout : Z).

(** The [on_frame] callback; [session_inactive] is the test
    [session && !session->active]. *)
Definition on_frame (session_inactive : bool) (o : options) (now : Z)
    (s : repaint_delay_manager_t) : repaint_delay_manager_t * frame_action :=
  if session_inactive then (s, frame_ignored)
  else
    let s' := start_frame o now s in
    let repaint_delay := get_delay s' in
    if repaint_delay <? 1 then (s', paint_now)
    else (s', paint_after repaint_delay).

End FrameCallback.

(** ** Running the postprocessing chain and painting *)

Module Paint.

Import Hooks.

(** Where a postprocessing stage renders to. *)
Inductive post_destination :=
  | final_target
  | post_buffer (idx : Z).

(** One call of a stage, on [post_buffers[cur_idx]] and [dst_buffer]. *)
Record post_call := {
  post_hook : post_hook_ptr;
  source_idx : Z;
  destination : post_destination;
}.

(** The loop of [run_post_effects] from [cur_idx] on; [back] is
    [post_effects.back()]. *)
Fixpoint run_post_from (back : option post_hook_ptr)
    (rest : list post_hook_ptr) (cur_idx : Z) : list post_call :=
  match rest with
  | [] => []
  | post :: rest' =>
      let next_idx := 1 - cur_idx in
      let dst_buffer :=
        if decide (Some post = back) then final_target
        else post_buffer next_idx in
      {| post_hook := post; source_idx := cur_idx;
         destination := dst_buffer |}
      :: run_post_from back rest' next_idx
  end.

Definition run_post_effects (p : postprocessing_manager_t) : list post_call :=
  run_post_from (last (post_effects p)) (post_effects p) 0.

(** The buffer of [get_target_framebuffer], which the scene is drawn to. *)
Definition get_target_framebuffer (p : postprocessing_manager_t)
    : post_destination :=
  if (0 <? size (post_effects p))%nat then post_buffer 0 else final_target.

(** What [paint] does, as the sequence of the hook calls and frame steps it
    makes (the damage bookkeeping, the clear of an inhibited output and the
    software cursors are not part of it).  The hooks are taken not to
    change the registry while they run. *)
Inductive paint_event :=
  | run_effect (type : output_effect_type_t) (hook : effect_hook_ptr)
  | skip_frame
  | output_pass
  | run_post (call : post_call)
  | swap_buffers.

Definition run_effects (type : output_effect_type_t)
    (m : effect_hook_manager_t) : list paint_event :=
  run_effect type <$> effects m type.

(** [paint]; [next_frame] says whether [damage_manager->start_frame()]
    returned a frame. *)
Definition paint (r : impl) (next_frame : bool) : list paint_event :=
  run_effects OUTPUT_EFFECT_PRE (effects_manager r)
  ++ run_effects OUTPUT_EFFECT_DAMAGE (effects_manager r)
  ++ (if do_direct_scanout r then []
      else if negb next_frame then [skip_frame]
      else
        [output_pass]
        ++ run_effects OUTPUT_EFFECT_OVERLAY (effects_manager r)
        ++ (run_post <$> run_post_effects (postprocessing r))
        ++ [swap_buffers]
        ++ run_effects OUTPUT_EFFECT_POST (effects_manager r)).

(** Replacing the effect registry of a render manager. *)
Definition with_effects (m : effect_hook_manager_t) (r : impl) : impl :=
  {| output_inhibit_counter := output_inhibit_counter r;
     effects_manager := m;
     postprocessing := postprocessing r;
     wlr_direct_scanout_allowed := wlr_direct_scanout_allowed r;
     icc_color_transform := icc_color_transform r;
     env_allow_scanout := env_allow_scanout r;
     render_instances := render_instances r |}.

End Paint.

(** ** Removing a transformer: [_rem_transformer] *)

Module TransformRemoval.

Import TransformStack.

(** [_rem_transformer node]; a null [node] is [None].  [parent] is what
    [node->parent()] gives after the cast to a floating inner node, and the
    result is [None] when the assertion on it fails. *)
Definition _rem_transformer (n : option node_ptr) (parent : option node_ptr)
    (m : transform_manager_node_t) : option transform_manager_node_t :=
  match n with
  | None => Some m
  | Some nd =>
      match parent with
      | None => None
      | Some p =>
          let kids := get_children nd m in
          let c1 := <[ nd := [] ]> (children m) in
          let c2 := <[ p := kids ]> c1 in
          Some {| self := self m;
                  transformers :=
                    filter (fun t => node t ≠ nd) (transformers m);
                  children := c2 |}
      end
  end.

End TransformRemoval.

(** ** Bounding boxes of transformed nodes: [get_bbox_for_node] *)

Module NodeBBox.

Import Geometry.
#[local] Open Scope R_scope.

(** [std::floor] and [std::ceil] followed by the conversion to [int]. *)
Definition floor_int (r : R) : Z := Int_part r.
Definition ceil_int (r : R) : Z := (- Int_part (- r))%Z.

(** [std::min] and [std::max] of a list of four. *)
Definition min4 (a b c d : R) : R := Rmin a (Rmin b (Rmin c d)).
Definition max4 (a b c d : R) : R := Rmax a (Rmax b (Rmax c d)).

(** [get_bbox_for_node node box], with [to_global] the mapping of the
    node. *)
Definition get_bbox_for_node (to_global : pointf_t -> pointf_t)
    (box : geometry_t) : geometry_t :=
  let p1 := to_global {| px := IZR (x box); py := IZR (y box) |} in
  let p2 := to_global {| px := IZR (x box + width box); py := IZR (y box) |} in
  let p3 := to_global {| px := IZR (x box); py := IZR (y box + height box) |} in
  let p4 := to_global {| px := IZR (x box + width box);
                         py := IZR (y box + height box) |} in
  let x1 := floor_int (min4 (px p1) (px p2) (px p3) (px p4)) in
  let x2 := ceil_int (max4 (px p1) (px p2) (px p3) (px p4)) in
  let y1 := floor_int (min4 (py p1) (py p2) (py p3) (py p4)) in
  let y2 := ceil_int (max4 (py p1) (py p2) (py p3) (py p4)) in
  {| x := x1; y := y1; width := (x2 - x1)%Z; height := (y2 - y1)%Z |}.

(** [view_2d_transformer_t::get_bounding_box] for the children's bounding
    box [children_bbox]. *)
Definition view_2d_bounding_box (t : View2D.view_2d_transformer_t)
    (children_bbox : geometry_t) : geometry_t :=
  get_bbox_for_node (View2D.to_global t) children_bbox.

End NodeBBox.

(** ** The forward mapping of the 3D transformer *)

Module View3DGlobal.

Import Geometry View3D.
#[local] Open Scope R_scope.

(** A [glm::vec4] and the product of a [glm::mat4] with it. *)
Record vec4 := { vx : R; vy : R; vz : R; vw : R; }.

Definition mat4_apply (m : mat4) (v : vec4) : vec4 :=
  let row r :=
    m 0%nat r * vx v + m 1%nat r * vy v + m 2%nat r * vz v
    + m 3%nat r * vw v in
  {| vx := row 0%nat; vy := row 1%nat; vz := row 2%nat; vw := row 3%nat |}.

(** [view_3d_transformer_t::to_global]. *)
Definition to_global (t : view_3d_transformer_t) (point : pointf_t)
    : pointf_t :=
  let wm_geom := children_bounding_box t in
  let p := get_center_relative_coords wm_geom point in
  let v := mat4_apply (calculate_total_transform t)
             {| vx := 1 * px p; vy := 1 * py p; vz := 0; vw := 1 |} in
  let v' :=
    if Rlt_dec (Rabs (vw v)) singular_threshold
    then {| vx := 0; vy := 0; vz := vz v; vw := vw v |}
    else {| vx := vx v / vw v; vy := vy v / vw v; vz := vz v; vw := vw v |} in
  get_absolute_coords_from_relative wm_geom {| px := vx v'; py := vy v' |}.

End View3DGlobal.

(** ** The crossfade node *)

Module CrossfadeNode.

Import Geometry.
#[local] Open Scope R_scope.

(** The data of a [crossfade_node_t] that its getters read: the geometry
    the view has now, the displayed geometry, and the inherited angle. *)
Record crossfade_node_t := {
  current_geometry : geometry_t;
  displayed_geometry : geometry_t;
  inherited_angle : R;
}.

Definition get_scale_x (c : crossfade_node_t) : R :=
  1 * IZR (width (displayed_geometry c)) / IZR (width (current_geometry c)).

Definition get_scale_y (c : crossfade_node_t) : R :=
  1 * IZR (height (displayed_geometry c)) / IZR (height (current_geometry c)).

Definition get_translation_x (c : crossfade_node_t) : R :=
  (IZR (x (displayed_geometry c)) + IZR (width (displayed_geometry c)) / 2)
  - (IZR (x (current_geometry c)) + IZR (width (current_geometry c)) / 2).

Definition get_translation_y (c : crossfade_node_t) : R :=
  (IZR (y (displayed_geometry c)) + IZR (height (displayed_geometry c)) / 2)
  - (IZR (y (current_geometry c)) + IZR (height (current_geometry c)) / 2).

(** The 2D transformer a crossfade node is, through its overridden
    getters; its view is the toplevel being animated. *)
Definition as_view_2d (c : crossfade_node_t) : View2D.view_2d_transformer_t :=
  {| View2D.view := view_toplevel (current_geometry c);
     View2D.scale_x := get_scale_x c;
     View2D.scale_y := get_scale_y c;
     View2D.angle := inherited_angle c;
     View2D.translation_x := get_translation_x c;
     View2D.translation_y := get_translation_y c |}.

End CrossfadeNode.

(** ** Workspace boxes of the damage manager *)

Module Workspaces.

Import Geometry.

(** What [get_ws_box] and [damage_whole] read from the output: the current
    workspace, the size of the workspace grid and the size of the output
    ([get_relative_geometry] and [get_screen_size]). *)
Record output_state := {
  current_workspace : Z * Z;
  grid_width : Z;
  grid_height : Z;
  relative_geometry : geometry_t;
  screen_width : Z;
  screen_height : Z;
}.

Definition get_ws_box (o : output_state) (ws : Z * Z) : geometry_t :=
  let box := relative_geometry o in
  {| x := (ws.1 - (current_workspace o).1) * width box;
     y := (ws.2 - (current_workspace o).2) * height box;
     width := width box;
     height := height box |}.

(** The box [damage_whole] passes to [damage]. *)
Definition damage_whole_box (o : output_state) : geometry_t :=
  {| x := - (current_workspace o).1 * screen_width o;
     y := - (current_workspace o).2 * screen_height o;
     width := grid_width o * screen_width o;
     height := grid_height o * screen_height o |}.

End Workspaces.

(** ** Constant redraw: [swapchain_damage_manager_t::set_redraw_always] *)

Module RedrawCounter.

(** [set_redraw_always always] on [constant_redraw_counter]: the new
    counter, and whether [schedule_repaint] is called. *)
Definition set_redraw_always (always : bool) (constant_redraw_counter : Z)
    : Z * bool :=
  let counter := constant_redraw_counter + (if always then 1 else -1) in
  if 1 <? counter then (counter, false)
  else if counter <? 0 then (0, false)
  else (counter, true).

(** A run of calls, first to last, from a counter. *)
Definition run (calls : list bool) (counter : Z) : Z :=
  fold_left (fun c always => (set_redraw_always always c).1) calls counter.

End RedrawCounter.

(** * Properties *)

(** ** [clamp] *)

Lemma clamp_bounds (v lo hi : Z) : lo <= hi -> lo <= clamp v lo hi <= hi.
Proof.
  intros Hle. unfold clamp.
  destruct (Z.ltb_spec v lo); [lia|].
  destruct (Z.ltb_spec hi v); lia.
Qed.

Lemma clamp_id (v lo hi : Z) : lo <= v <= hi -> clamp v lo hi = v.
Proof.
  intros [H1 H2]. unfold clamp.
  destruct (Z.ltb_spec v lo); [lia|].
  destruct (Z.ltb_spec hi v); lia.
Qed.

Lemma clamp_pinned (v b : Z) : clamp v b b = b.
Proof.
  unfold clamp.
  destruct (Z.ltb_spec v b); [reflexivity|].
  destruct (Z.ltb_spec b v); lia.
Qed.

Lemma clamp_min_max (v lo hi : Z) :
  lo <= hi -> clamp v lo hi = Z.max lo (Z.min v hi).
Proof.
  intros Hle. unfold clamp.
  destruct (Z.ltb_spec v lo); [lia|].
  destruct (Z.ltb_spec hi v); lia.
Qed.

(** ** The frame pacer *)

Module PacerSpec.

Import Pacer.

(** The integer threshold of the code is the real bound [1.5 * refresh]:
    an integer frame length is below one exactly when it is below the
    other. *)
Lemma on_time_thresh_spec (s : repaint_delay_manager_t) (len : Z) :
  0 <= refresh_nsec s ->
  (len <= on_time_thresh s <-> 2 * len <= 3 * refresh_msec s).
Proof.
  intros Hr. unfold on_time_thresh.
  assert (0 <= refresh_msec s) as Hm.
  { unfold refresh_msec. apply Z.quot_pos; lia. }
  rewrite Z.quot_div_nonneg by lia.
  pose proof (Z.div_mod (refresh_msec s * 3) 2 ltac:(lia)).
  pose proof (Z.mod_pos_bound (refresh_msec s * 3) 2 ltac:(lia)).
  lia.
Qed.

(** [shrink_window] is 75% of the window, rounded down. *)
Lemma shrink_window_spec (w : Z) :
  0 <= w -> 4 * shrink_window w <= 3 * w < 4 * shrink_window w + 4.
Proof.
  intros Hw. unfold shrink_window.
  rewrite Z.quot_div_nonneg by lia.
  pose proof (Z.div_mod (w * 3) 4 ltac:(lia)).
  pose proof (Z.mod_pos_bound (w * 3) 4 ltac:(lia)).
  lia.
Qed.

Lemma delay_bounds_ordered (o : options) (s : repaint_delay_manager_t) :
  0 <= (delay_bounds o s).1 <= (delay_bounds o s).2
  /\ (delay_bounds o s).2 <= config_delay o s.
Proof.
  unfold delay_bounds, config_delay.
  destruct (max_render_time o =? -1); simpl; [lia|].
  destruct (dynamic_delay o); simpl; lia.
Qed.

(** The setters touch one field each. *)
Lemma delay_bounds_refresh (o : options) (s s' : repaint_delay_manager_t) :
  refresh_nsec s' = refresh_nsec s -> delay_bounds o s' = delay_bounds o s.
Proof.
  intros H. unfold delay_bounds, config_delay, refresh_msec. now rewrite H.
Qed.

Lemma update_delay_fields (o : options) (delta : Z)
    (s : repaint_delay_manager_t) :
  let s' := update_delay o delta s in
  delay s' = clamp (delay s + delta) (delay_bounds o s).1 (delay_bounds o s).2
  /\ increase_window s' = increase_window s
  /\ last_increase s' = last_increase s
  /\ expand_inc_window_on_miss s' = expand_inc_window_on_miss s
  /\ consecutive_decrease s' = consecutive_decrease s
  /\ last_pageflip s' = last_pageflip s
  /\ refresh_nsec s' = refresh_nsec s.
Proof.
  unfold update_delay. destruct (delay_bounds o s) as [lo hi]. simpl. tauto.
Qed.

(** C2.  After [update_delay] the delay lies in [[0, configured_max]] with
    [configured_max = max 0 (refresh_ms - max_render_time)]; it is 0 when
    the render-time budget is unconfigured ([-1]); it equals
    [configured_max] when dynamic adjustment is off and a budget is
    configured. *)
Theorem update_delay_range (o : options) (delta : Z)
    (s : repaint_delay_manager_t) :
  let s' := update_delay o delta s in
  let configured_max := Z.max 0 (refresh_msec s - max_render_time o) in
  0 <= delay s' <= configured_max
  /\ (max_render_time o = -1 -> delay s' = 0)
  /\ (dynamic_delay o = false -> max_render_time o <> -1 ->
      delay s' = configured_max).
Proof.
  intros s' configured_max.
  destruct (update_delay_fields o delta s) as [Hd _]. fold s' in Hd.
  pose proof (delay_bounds_ordered o s) as [Hord Hcap].
  pose proof (clamp_bounds (delay s + delta) _ _ (proj2 Hord)) as Hc.
  rewrite <- Hd in Hc. unfold config_delay in Hcap. fold configured_max in Hcap.
  split; [lia|]. split.
  - intros Hm. revert Hc. unfold delay_bounds.
    rewrite (proj2 (Z.eqb_eq _ _) Hm). simpl. lia.
  - intros Hdyn Hm. rewrite Hd. unfold delay_bounds.
    rewrite (proj2 (Z.eqb_neq _ _) Hm), Hdyn. simpl.
    apply clamp_pinned.
Qed.

(** The delay read by [get_delay] stays in range over a whole run of
    wake-ups, as long as the options and the refresh interval are fixed. *)
Lemma start_frame_refresh (o : options) (now : Z)
    (s : repaint_delay_manager_t) :
  refresh_nsec (start_frame o now s) = refresh_nsec s.
Proof.
  unfold start_frame.
  destruct (last_pageflip s =? -1); [reflexivity|].
  destruct (_ <=? on_time_thresh s); simpl.
  - destruct (increase_window s <=? _); simpl; [|reflexivity].
    unfold update_delay. now destruct (delay_bounds _ _).
  - unfold update_delay. destruct (delay_bounds _ _). simpl.
    now destruct (0 <=? _).
Qed.

Lemma update_delay_delay (o : options) (delta : Z)
    (s s0 : repaint_delay_manager_t) :
  refresh_nsec s = refresh_nsec s0 ->
  delay (update_delay o delta s)
  = clamp (delay s + delta) (delay_bounds o s0).1 (delay_bounds o s0).2.
Proof.
  intros Hr. destruct (update_delay_fields o delta s) as [Hd _].
  now rewrite Hd, (delay_bounds_refresh o s0 s Hr).
Qed.

Lemma start_frame_delay_range (o : options) (now : Z)
    (s : repaint_delay_manager_t) :
  (delay_bounds o s).1 <= delay s <= (delay_bounds o s).2 ->
  (delay_bounds o s).1 <= delay (start_frame o now s) <= (delay_bounds o s).2.
Proof.
  intros Hin.
  pose proof (delay_bounds_ordered o s) as [Hord _].
  unfold start_frame.
  destruct (last_pageflip s =? -1); [exact Hin|].
  destruct (_ <=? on_time_thresh s); cbn [delay set_last_pageflip
    set_consecutive_decrease reset_increase_timer set_expand].
  - destruct (increase_window s <=? _);
      cbn [delay set_expand reset_increase_timer]; [|exact Hin].
    rewrite update_delay_delay with (s0 := s) by reflexivity.
    apply clamp_bounds. lia.
  - destruct (0 <=? _); cbn [delay set_increase_window set_consecutive_decrease];
      rewrite update_delay_delay with (s0 := s) by reflexivity;
      apply clamp_bounds; lia.
Qed.

(** C1 as the code has it.  On a wake-up that follows a frame not marked
    skipped, with [frame_length = now - last_pageflip] and the threshold
    [1.5 * refresh] (refresh interval in whole milliseconds):
    - on time and the increase window elapsed: the window becomes 75% of
      itself clamped to [[200, 30000]], the delay becomes [delay + 1]
      clamped to the configured range, the increase timer is reset, the
      grace counter is 20 and the backoff factor 1;
    - on time and the window not elapsed: the grace counter is decremented,
      the backoff factor is 1, nothing else changes;
    - missed: the delay becomes [delay - backoff] clamped to the configured
      range, the backoff factor doubles clamped to [[1, 32]], the window
      doubles clamped to [[200, 30000]] exactly when the grace counter is
      not negative, and the increase timer is reset.
    In every case the pageflip time becomes [now]. *)
Theorem start_frame_update (o : options) (now : Z)
    (s : repaint_delay_manager_t) :
  last_pageflip s <> -1 ->
  0 <= refresh_nsec s ->
  let frame_length := now - last_pageflip s in
  let refresh := refresh_msec s in
  let lo := (delay_bounds o s).1 in
  let hi := (delay_bounds o s).2 in
  let s' := start_frame o now s in
  last_pageflip s' = now
  /\ (2 * frame_length <= 3 * refresh ->
      increase_window s <= now - last_increase s ->
      increase_window s'
        = clamp (shrink_window (increase_window s)) 200 30000
      /\ delay s' = clamp (delay s + 1) lo hi
      /\ last_increase s' = now
      /\ expand_inc_window_on_miss s' = 20
      /\ consecutive_decrease s' = 1)
  /\ (2 * frame_length <= 3 * refresh ->
      now - last_increase s < increase_window s ->
      expand_inc_window_on_miss s' = expand_inc_window_on_miss s - 1
      /\ consecutive_decrease s' = 1
      /\ delay s' = delay s
      /\ increase_window s' = increase_window s
      /\ last_increase s' = last_increase s)
  /\ (3 * refresh < 2 * frame_length ->
      delay s' = clamp (delay s - consecutive_decrease s) lo hi
      /\ consecutive_decrease s' = clamp (consecutive_decrease s * 2) 1 32
      /\ increase_window s'
         = (if 0 <=? expand_inc_window_on_miss s
            then clamp (increase_window s * 2) 200 30000
            else increase_window s)
      /\ last_increase s' = now
      /\ expand_inc_window_on_miss s' = expand_inc_window_on_miss s).
Proof.
  intros Hvalid Hrefresh frame_length refresh lo hi s'.
  pose proof (on_time_thresh_spec s frame_length Hrefresh) as Hthr.
  fold refresh in Hthr.
  subst s'. unfold start_frame.
  rewrite (proj2 (Z.eqb_neq _ _) Hvalid). fold frame_length.
  split.
  { destruct (frame_length <=? on_time_thresh s); reflexivity. }
  destruct (Z.leb_spec frame_length (on_time_thresh s)) as [Hon | Hmiss].
  - destruct (Z.leb_spec (increase_window s) (now - last_increase s))
      as [Hwin | Hwin].
    + split; [|split]; [intros _ _ | intros _ ?; lia | intros ?; lia].
      cbn [increase_window delay last_increase expand_inc_window_on_miss
           consecutive_decrease set_last_pageflip set_consecutive_decrease
           set_expand reset_increase_timer].
      destruct (update_delay_fields o 1 (set_increase_window
        (clamp (shrink_window (increase_window s)) MIN_INCREASE_WINDOW
           MAX_INCREASE_WINDOW) s)) as (_ & Hw & _).
      rewrite Hw.
      rewrite update_delay_delay with (s0 := s) by reflexivity.
      repeat split; reflexivity.
    + split; [|split]; [intros _ ?; lia | intros _ _ | intros ?; lia].
      repeat split; reflexivity.
  - split; [|split]; [intros ?; lia | intros ?; lia | intros _].
    destruct (update_delay_fields o (- consecutive_decrease s) s)
      as (_ & Hw & Hli & He & Hc & _).
    cbn [expand_inc_window_on_miss set_consecutive_decrease].
    rewrite He, Hc.
    destruct (0 <=? expand_inc_window_on_miss s);
      cbn [increase_window delay last_increase expand_inc_window_on_miss
           consecutive_decrease set_last_pageflip set_consecutive_decrease
           set_increase_window reset_increase_timer];
      rewrite ?Hw, ?He;
      rewrite update_delay_delay with (s0 := s) by reflexivity;
      repeat split; reflexivity.
Qed.

(** The theorem at a missed frame: refresh 16 ms, frame length 30 ms, delay
    5 and backoff factor 2. *)
Lemma start_frame_update_witness :
  let o := {| max_render_time := 6; dynamic_delay := true |} in
  let s := {| delay := 5; increase_window := 200; last_increase := 70;
              expand_inc_window_on_miss := 3; consecutive_decrease := 2;
              last_pageflip := 100; refresh_nsec := 16666666 |} in
  delay (start_frame o 130 s) = 3
  /\ consecutive_decrease (start_frame o 130 s) = 4
  /\ increase_window (start_frame o 130 s) = 400.
Proof.
  intros o s.
  destruct (start_frame_update o 130 s) as (_ & _ & _ & Hmiss).
  - simpl. lia.
  - simpl. lia.
  - destruct Hmiss as (Hd & Hc & Hw & _).
    + vm_compute. reflexivity.
    + rewrite Hd, Hc, Hw. vm_compute. repeat split; reflexivity.
Defined.

(** C1 as worded fails where the clamp of [update_delay] bites: an on-time
    frame with the increase window elapsed leaves a delay that already is
    at the configured maximum unchanged (refresh 16 ms, budget 10 ms, delay
    6), and with the default unconfigured budget the delay never leaves 0. *)
Lemma start_frame_delay_saturates :
  let s := {| delay := 6; increase_window := 200; last_increase := 0;
              expand_inc_window_on_miss := 0; consecutive_decrease := 1;
              last_pageflip := 290; refresh_nsec := 16000000 |} in
  let capped := {| max_render_time := 10; dynamic_delay := true |} in
  let unconfigured := {| max_render_time := -1; dynamic_delay := true |} in
  last_pageflip s <> -1
  /\ 2 * (300 - last_pageflip s) <= 3 * refresh_msec s
  /\ increase_window s <= 300 - last_increase s
  /\ delay (start_frame capped 300 s) <> delay s + 1
  /\ delay (start_frame unconfigured 300 (set_delay 0 s)) <> 0 + 1.
Proof. vm_compute. repeat split; congruence. Qed.

(** The increase window and the backoff factor keep their ranges, so the
    doublings of the miss branch are bounded by the upper limits alone. *)
Lemma start_frame_well_formed (o : options) (now : Z)
    (s : repaint_delay_manager_t) :
  well_formed s -> well_formed (start_frame o now s).
Proof.
  intros [Hw Hc]. unfold well_formed, start_frame.
  destruct (last_pageflip s =? -1); [split; assumption|].
  destruct (_ <=? on_time_thresh s);
    cbn [increase_window consecutive_decrease set_last_pageflip
         set_consecutive_decrease reset_increase_timer set_expand].
  - split; [|lia]. destruct (increase_window s <=? _);
      cbn [increase_window set_expand reset_increase_timer]; [|assumption].
    destruct (update_delay_fields o 1 (set_increase_window
      (clamp (shrink_window (increase_window s)) MIN_INCREASE_WINDOW
         MAX_INCREASE_WINDOW) s)) as (_ & -> & _).
    cbn [increase_window set_increase_window].
    apply clamp_bounds. unfold MIN_INCREASE_WINDOW, MAX_INCREASE_WINDOW. lia.
  - destruct (update_delay_fields o (- consecutive_decrease s) s)
      as (_ & Hiw & _ & He & Hcd & _).
    cbn [expand_inc_window_on_miss set_consecutive_decrease].
    rewrite He, Hcd.
    destruct (0 <=? expand_inc_window_on_miss s);
      cbn [increase_window consecutive_decrease set_increase_window
           set_consecutive_decrease];
      rewrite ?Hiw; split; try assumption; apply clamp_bounds;
      unfold MIN_INCREASE_WINDOW, MAX_INCREASE_WINDOW; lia.
Qed.

Lemma miss_doubling (s : repaint_delay_manager_t) :
  well_formed s ->
  clamp (consecutive_decrease s * 2) 1 32
    = Z.min (consecutive_decrease s * 2) 32
  /\ clamp (increase_window s * 2) 200 30000
    = Z.min (increase_window s * 2) 30000.
Proof.
  unfold well_formed, MIN_INCREASE_WINDOW, MAX_INCREASE_WINDOW.
  intros [Hw Hc]. rewrite !clamp_min_max by lia. lia.
Qed.

(** Two misses in a row from a stable delay of 5 (refresh 16 ms, frame
    length 30 ms): the first takes 1 off, the second 2. *)
Example two_missed_frames :
  let o := {| max_render_time := 6; dynamic_delay := true |} in
  let s := {| delay := 5; increase_window := 200; last_increase := 90;
              expand_inc_window_on_miss := 3; consecutive_decrease := 1;
              last_pageflip := 100; refresh_nsec := 16000000 |} in
  map get_delay [start_frame o 130 s; run o [130; 160] s] = [4; 2].
Proof. reflexivity. Qed.

Lemma run_delay_range (o : options) (times : list Z)
    (s : repaint_delay_manager_t) :
  (delay_bounds o s).1 <= delay s <= (delay_bounds o s).2 ->
  0 <= get_delay (run o times s) <= config_delay o s.
Proof.
  revert s. induction times as [|t times IH]; intros s Hin.
  - pose proof (delay_bounds_ordered o s). unfold get_delay. simpl. lia.
  - simpl.
    pose proof (start_frame_delay_range o t s Hin) as Hstep.
    pose proof (start_frame_refresh o t s) as Hr.
    rewrite <- (delay_bounds_refresh o s _ Hr) in Hstep.
    specialize (IH _ Hstep).
    unfold config_delay, refresh_msec in *. now rewrite Hr in IH.
Qed.

End PacerSpec.

(** ** The depth-buffer cache *)

Module DepthBufferSpec.

Import DepthBuffer.

Implicit Types (gl : gl_state) (m : depth_buffer_manager_t)
  (bufs : list depth_buffer_t) (b : depth_buffer_t).

(** *** The GL side of freeing *)

Lemma free_buffer_textures b gl :
  textures (free_buffer b gl) ⊆ textures gl.
Proof.
  unfold free_buffer. destruct (decide _); simpl; [done|].
  intros x Hx. by apply elem_of_difference in Hx as [Hx _].
Qed.

Lemma free_buffer_dead b gl :
  tex b ≠ NO_TEXTURE → tex b ∉ textures (free_buffer b gl).
Proof.
  intros Hne. unfold free_buffer. destruct (decide _); [done|]. simpl.
  intros Hx. apply elem_of_difference in Hx as [_ Hx].
  apply Hx. by apply elem_of_singleton.
Qed.

Lemma free_fold_subseteq bufs gl :
  textures (fold_left (fun g b => free_buffer b g) bufs gl) ⊆ textures gl.
Proof.
  revert gl. induction bufs as [|b bufs IH]; intros gl; simpl; [done|].
  etrans; [apply IH | apply free_buffer_textures].
Qed.

Lemma free_fold_dead bufs gl b :
  b ∈ bufs → tex b ≠ NO_TEXTURE →
  tex b ∉ textures (fold_left (fun g b => free_buffer b g) bufs gl).
Proof.
  revert gl. induction bufs as [|b' bufs IH]; intros gl Hin Hne.
  - by apply elem_of_nil in Hin.
  - simpl. apply elem_of_cons in Hin as [-> | Hin].
    + intros Hlive. apply free_fold_subseteq in Hlive.
      by apply (free_buffer_dead b' gl).
    + by apply IH.
Qed.

(** [set_required] never writes the vector: whatever the counter becomes,
    the entries and their fields are the ones from before the call. *)
Lemma set_required_buffers require gl m :
  buffers (set_required require gl m).2 = buffers m.
Proof.
  unfold set_required, free_all_buffers. simpl.
  case_decide; [|done]. by destruct (is_gles gl).
Qed.

Lemma set_required_counter require gl m :
  required_counter (set_required require gl m).2
  = required_counter m + (if require then 1 else -1).
Proof.
  unfold set_required, free_all_buffers. simpl.
  case_decide; [|done]. by destruct (is_gles gl).
Qed.

(** The half of C3 that holds: when the counter drops to 0 or below under
    the GLES renderer, the texture of every entry is deleted. *)
Lemma set_required_frees_textures gl m b :
  is_gles gl = true → required_counter m - 1 <= 0 →
  b ∈ buffers m → tex b ≠ NO_TEXTURE →
  tex b ∉ textures (set_required false gl m).1.
Proof.
  intros Hgles Hcnt Hin Hne. unfold set_required, free_all_buffers. simpl.
  rewrite decide_True by lia. rewrite Hgles. simpl.
  by apply free_fold_dead.
Qed.

(** A hit in [ensure_depth_buffer]: an entry attached to [fb] with the
    requested size is taken as it is, whether or not its texture is alive. *)
Lemma ensure_hit_unchanged gl m fb w h now i b :
  fb ≠ 0 → 0 < required_counter m →
  buffers m !! i = Some b →
  (∀ j b', buffers m !! j = Some b' → (j < i)%nat → attached_to b' ≠ fb) →
  attached_to b = fb → width b = w → height b = h →
  ensure_depth_buffer fb w h now gl m = (gl, m).
Proof.
  intros Hfb Hcnt Hlook Hfirst Hatt Hw Hh. unfold ensure_depth_buffer.
  rewrite decide_False by lia.
  assert (list_find (fun b => attached_to b = fb) (buffers m) = Some (i, b))
    as Hfind by (apply list_find_Some; eauto).
  unfold find_buffer. rewrite Hfind. unfold attach_buffer. rewrite Hlook.
  rewrite decide_True by done. by destruct m.
Qed.

(** *** The bound on the number of entries *)

Lemma oldest_from_lt rest i best best_used n :
  (best < n)%nat → (i + length rest ≤ n)%nat →
  (oldest_from rest i best best_used < n)%nat.
Proof.
  revert i best best_used.
  induction rest as [|b rest IH]; intros i best best_used Hb Hi; simpl in *.
  - done.
  - destruct (last_used b <? best_used); apply IH; lia.
Qed.

Lemma oldest_lt bufs : bufs ≠ [] → (oldest bufs < length bufs)%nat.
Proof.
  destruct bufs as [|front rest]; [done|]. intros _. unfold oldest.
  apply oldest_from_lt; simpl; lia.
Qed.

Lemma attach_buffer_length i fb w h now gl bufs :
  length (attach_buffer i fb w h now gl bufs).2 = length bufs.
Proof.
  unfold attach_buffer. destruct (bufs !! i) as [b|]; [|done].
  destruct (decide _); [done|].
  destruct (glGenTextures _) as [name gl2]. simpl. apply length_insert.
Qed.

Lemma find_buffer_length fb bufs :
  (length bufs ≤ MAX_BUFFERS)%nat →
  (length (find_buffer fb bufs).2 ≤ MAX_BUFFERS)%nat.
Proof.
  intros Hlen. unfold find_buffer.
  destruct (list_find _ bufs) as [[i b]|]; [done|].
  destruct (decide _); simpl; [|done].
  rewrite length_app. simpl. lia.
Qed.

Lemma step_length st c :
  (length (buffers st.2) ≤ MAX_BUFFERS)%nat →
  (length (buffers (step st c).2) ≤ MAX_BUFFERS)%nat.
Proof.
  intros Hlen. destruct st as [gl m], c as [fb w h now | require]; simpl in *.
  - unfold ensure_depth_buffer. destruct (decide _); [done|].
    pose proof (find_buffer_length fb (buffers m) Hlen) as Hfind.
    destruct (find_buffer fb (buffers m)) as [i bufs].
    pose proof (attach_buffer_length i fb w h now gl bufs) as Hatt.
    destruct (attach_buffer i fb w h now gl bufs) as [gl' bufs'].
    simpl in *. lia.
  - by rewrite set_required_buffers.
Qed.

Lemma run_length calls st :
  (length (buffers st.2) ≤ MAX_BUFFERS)%nat →
  (length (buffers (run calls st).2) ≤ MAX_BUFFERS)%nat.
Proof.
  revert st. induction calls as [|c calls IH]; intros st Hlen; [done|].
  simpl. apply IH. by apply step_length.
Qed.

(** *** The eviction loop picks the first entry of least [last_used] *)

Lemma oldest_from_spec all rest i best best_used vb :
  drop i all = rest →
  all !! best = Some vb → last_used vb = best_used →
  (∀ k b, (k < i)%nat → all !! k = Some b → best_used <= last_used b) →
  (∀ k b, (k < best)%nat → all !! k = Some b → best_used < last_used b) →
  ∃ v, all !! oldest_from rest i best best_used = Some v
       ∧ (∀ b, b ∈ all → last_used v <= last_used b)
       ∧ (∀ k b, (k < oldest_from rest i best best_used)%nat →
                 all !! k = Some b → last_used v < last_used b).
Proof.
  revert i best best_used vb.
  induction rest as [|b rest IH]; intros i best best_used vb Hdrop Hbest Hused
    Hseen Hfirst.
  - simpl. exists vb. split; [done|]. split; [|by rewrite Hused].
    intros b Hin. apply list_elem_of_lookup in Hin as [k Hk].
    rewrite Hused. apply (Hseen k); [|done].
    apply drop_nil_inv in Hdrop. apply lookup_lt_Some in Hk. lia.
  - assert (all !! i = Some b) as Hi.
    { rewrite <- (Nat.add_0_r i), <- lookup_drop, Hdrop. done. }
    assert (drop (S i) all = rest) as Hdrop'.
    { rewrite (drop_S _ _ _ Hi) in Hdrop. by inversion Hdrop. }
    simpl. destruct (Z.ltb_spec (last_used b) best_used) as [Hlt | Hge].
    + apply (IH (S i) i (last_used b) b); try done.
      * intros k b' Hk Hb'. destruct (decide (k = i)) as [-> | Hne].
        -- rewrite Hi in Hb'. simplify_eq. lia.
        -- assert (best_used <= last_used b') by (apply (Hseen k); [lia|done]).
           lia.
      * intros k b' Hk Hb'.
        assert (best_used <= last_used b') by (by apply (Hseen k)). lia.
    + apply (IH (S i) best best_used vb); try done.
      intros k b' Hk Hb'. destruct (decide (k = i)) as [-> | Hne].
      * rewrite Hi in Hb'. simplify_eq. lia.
      * apply (Hseen k); [lia|done].
Qed.

Lemma oldest_spec bufs :
  bufs ≠ [] →
  ∃ victim, bufs !! oldest bufs = Some victim
    ∧ (∀ b, b ∈ bufs → last_used victim <= last_used b)
    ∧ (∀ k b, (k < oldest bufs)%nat → bufs !! k = Some b →
              last_used victim < last_used b).
Proof.
  destruct bufs as [|front rest]; [done|]. intros _. unfold oldest.
  apply (oldest_from_spec _ _ 0 0 (last_used front) front); try done;
    intros k b Hk; lia.
Qed.

(** *** What [ensure_depth_buffer] does on a miss *)

Lemma find_buffer_miss fb bufs :
  (∀ b, b ∈ bufs → attached_to b ≠ fb) →
  find_buffer fb bufs
  = if decide (length bufs < MAX_BUFFERS)%nat
    then (length bufs, bufs ++ [empty_buffer])
    else (oldest bufs, bufs).
Proof.
  intros Hmiss. unfold find_buffer.
  destruct (list_find _ bufs) as [[i b]|] eqn:Hfind; [|done].
  apply list_find_Some in Hfind as (Hlook & Hatt & _).
  exfalso. apply (Hmiss b); [|done]. by eapply list_elem_of_lookup_2.
Qed.

(** A miss below capacity appends an entry for [fb]. *)
Lemma ensure_appends gl m fb w h now :
  fb ≠ 0 → fb ≠ -1 → 0 < required_counter m →
  (length (buffers m) < MAX_BUFFERS)%nat →
  (∀ b, b ∈ buffers m → attached_to b ≠ fb) →
  ∃ name gl',
    ensure_depth_buffer fb w h now gl m
    = (gl', {| required_counter := required_counter m;
               buffers := buffers m ++
                 [ {| tex := name; attached_to := fb; width := w;
                      height := h; last_used := now |} ] |}).
Proof.
  intros Hfb Hfb' Hcnt Hlen Hmiss. unfold ensure_depth_buffer.
  rewrite decide_False by lia.
  rewrite (find_buffer_miss _ _ Hmiss), decide_True by done.
  unfold attach_buffer.
  rewrite lookup_app_r, Nat.sub_diag by done. simpl.
  rewrite decide_False by (intros (Hatt & _); congruence).
  unfold glGenTextures. cbv zeta.
  eexists _, _. f_equal. f_equal.
  rewrite insert_app_r_alt, Nat.sub_diag by done. done.
Qed.

(** A miss at capacity overwrites the entry [oldest] points to. *)
Lemma ensure_evicts gl m fb w h now :
  fb ≠ 0 → 0 < required_counter m →
  length (buffers m) = MAX_BUFFERS →
  (∀ b, b ∈ buffers m → attached_to b ≠ fb) →
  ∃ name gl',
    ensure_depth_buffer fb w h now gl m
    = (gl', {| required_counter := required_counter m;
               buffers := <[ oldest (buffers m) :=
                 {| tex := name; attached_to := fb; width := w;
                    height := h; last_used := now |} ]> (buffers m) |})
    ∧ name ∈ textures gl'.
Proof.
  intros Hfb Hcnt Hlen Hmiss. unfold ensure_depth_buffer.
  rewrite decide_False by lia.
  rewrite (find_buffer_miss _ _ Hmiss), decide_False by lia.
  assert (buffers m ≠ []) as Hne by (intros Hnil; by rewrite Hnil in Hlen).
  destruct (oldest_spec _ Hne) as (victim & Hlook & _).
  unfold attach_buffer. rewrite Hlook.
  rewrite decide_False.
  2: { intros (Hatt & _). apply (Hmiss victim); [|done].
       by eapply list_elem_of_lookup_2. }
  unfold glGenTextures. simpl.
  eexists _, _. split; [reflexivity|]. simpl.
  apply elem_of_union_l. by apply elem_of_singleton.
Qed.

(** Four distinct framebuffers ensured in a row under one requirement: the
    fourth overwrites the entry of the first. *)
Lemma four_inserts gl (a b c d wa ha wb hb wc hc wd hd ta tb tc td : Z) :
  NoDup [a; b; c; d] →
  Forall (fun fb => fb ≠ 0 ∧ fb ≠ -1) [a; b; c; d] →
  ta <= tb → ta <= tc →
  (fun e => (attached_to e, last_used e)) <$>
    buffers (run [SetRequired true; Ensure a wa ha ta; Ensure b wb hb tb;
                  Ensure c wc hc tc; Ensure d wd hd td] (gl, initial)).2
  = [(d, td); (b, tb); (c, tc)].
Proof.
  intros Hdup Hvalid Hab Hac.
  rewrite !NoDup_cons in Hdup. rewrite !not_elem_of_cons in Hdup.
  destruct Hdup as ((Hnab & Hnac & Hnad & _) & (Hnbc & Hnbd & _)
                    & (Hncd & _) & _).
  apply Forall_cons in Hvalid as [[Ha0 Ha1] Hvalid].
  apply Forall_cons in Hvalid as [[Hb0 Hb1] Hvalid].
  apply Forall_cons in Hvalid as [[Hc0 Hc1] Hvalid].
  apply Forall_cons in Hvalid as [[Hd0 Hd1] _].
  unfold run. cbn [fold_left step fst snd].
  replace (set_required true gl initial)
    with (gl, {| required_counter := 1; buffers := [] |}) by done.
  cbn [fst snd].
  assert (0 < 1) as Hone by lia.
  set (m0 := {| required_counter := 1; buffers := [] |}).
  assert (∀ e, e ∈ buffers m0 → attached_to e ≠ a) as Hmiss0.
  { intros e He. by apply elem_of_nil in He. }
  destruct (ensure_appends gl m0 a wa ha ta Ha0 Ha1 Hone
              ltac:(simpl; unfold MAX_BUFFERS; lia) Hmiss0)
    as (na & gl1 & ->).
  cbn [fst snd required_counter buffers app m0]. clear Hmiss0 m0.
  set (ea := {| tex := na; attached_to := a; width := wa; height := ha;
                last_used := ta |}).
  set (m1 := {| required_counter := 1; buffers := [ea] |}).
  assert (∀ e, e ∈ buffers m1 → attached_to e ≠ b) as Hmiss1.
  { intros e He. apply list_elem_of_singleton in He as ->. simpl. congruence. }
  destruct (ensure_appends gl1 m1 b wb hb tb Hb0 Hb1 Hone
              ltac:(simpl; unfold MAX_BUFFERS; lia) Hmiss1)
    as (nb & gl2 & ->).
  cbn [fst snd required_counter buffers app m1]. clear Hmiss1 m1.
  set (eb := {| tex := nb; attached_to := b; width := wb; height := hb;
                last_used := tb |}).
  set (m2 := {| required_counter := 1; buffers := [ea; eb] |}).
  assert (∀ e, e ∈ buffers m2 → attached_to e ≠ c) as Hmiss2.
  { intros e He. simpl in He. rewrite !elem_of_cons in He.
    destruct He as [-> | [-> | He]]; [simpl; congruence ..|].
    by apply elem_of_nil in He. }
  destruct (ensure_appends gl2 m2 c wc hc tc Hc0 Hc1 Hone
              ltac:(simpl; unfold MAX_BUFFERS; lia) Hmiss2)
    as (nc & gl3 & ->).
  cbn [fst snd required_counter buffers app m2]. clear Hmiss2 m2.
  set (ec := {| tex := nc; attached_to := c; width := wc; height := hc;
                last_used := tc |}).
  set (m3 := {| required_counter := 1; buffers := [ea; eb; ec] |}).
  assert (∀ e, e ∈ buffers m3 → attached_to e ≠ d) as Hmiss3.
  { intros e He. simpl in He. rewrite !elem_of_cons in He.
    destruct He as [-> | [-> | [-> | He]]]; [simpl; congruence ..|].
    by apply elem_of_nil in He. }
  destruct (ensure_evicts gl3 m3 d wd hd td Hd0 Hone eq_refl Hmiss3)
    as (nd & gl4 & -> & _).
  cbn [fst snd required_counter buffers m3].
  unfold oldest, oldest_from. cbn [last_used ea eb ec].
  rewrite Z.ltb_irrefl.
  rewrite (proj2 (Z.ltb_ge tb ta)) by lia.
  rewrite (proj2 (Z.ltb_ge tc ta)) by lia.
  done.
Qed.

(** C4.  Starting from an empty cache, no run of calls leaves more than 3
    entries.  When [ensure_depth_buffer] is called with the counter
    positive and a nonzero framebuffer that has no entry while the cache
    holds 3 entries, the entry overwritten for it is one whose [last_used]
    is the smallest (the first such entry), and the other entries stay.
    After four distinct framebuffers are ensured under one requirement, at
    times that do not decrease, the cache holds the fourth in the place of
    the first, next to the second and the third. *)
Theorem depth_cache_lru_eviction :
  (∀ calls gl, (length (buffers (run calls (gl, initial)).2) ≤ 3)%nat)
  ∧ (∀ gl m fb w h now,
       0 < required_counter m → fb ≠ 0 →
       length (buffers m) = 3%nat →
       (∀ b, b ∈ buffers m → attached_to b ≠ fb) →
       ∃ i victim name,
         buffers m !! i = Some victim
         ∧ (∀ b, b ∈ buffers m → last_used victim <= last_used b)
         ∧ (∀ k b, (k < i)%nat → buffers m !! k = Some b →
                   last_used victim < last_used b)
         ∧ buffers (ensure_depth_buffer fb w h now gl m).2
           = <[ i := {| tex := name; attached_to := fb; width := w;
                        height := h; last_used := now |} ]> (buffers m))
  ∧ (∀ gl (a b c d wa ha wb hb wc hc wd hd ta tb tc td : Z),
       NoDup [a; b; c; d] →
       Forall (fun fb => fb ≠ 0 ∧ fb ≠ -1) [a; b; c; d] →
       ta <= tb → tb <= tc → tc <= td →
       (fun e => (attached_to e, last_used e)) <$>
         buffers (run [SetRequired true; Ensure a wa ha ta; Ensure b wb hb tb;
                       Ensure c wc hc tc; Ensure d wd hd td] (gl, initial)).2
       = [(d, td); (b, tb); (c, tc)]).
Proof.
  split; [|split].
  - intros calls gl. apply (run_length calls (gl, initial)). simpl.
    unfold MAX_BUFFERS. lia.
  - intros gl m fb w h now Hcnt Hfb Hlen Hmiss.
    assert (buffers m ≠ []) as Hne by (intros Hnil; by rewrite Hnil in Hlen).
    destruct (oldest_spec _ Hne) as (victim & Hlook & Hmin & Hfirst).
    destruct (ensure_evicts gl m fb w h now Hfb Hcnt Hlen Hmiss)
      as (name & gl' & Heq & _).
    exists (oldest (buffers m)), victim, name. rewrite Heq. done.
  - intros gl a b c d wa ha wb hb wc hc wd hd ta tb tc td Hdup Hvalid
      Hab Hbc Hcd.
    apply four_inserts; try done. lia.
Qed.

(** The theorem at framebuffers 5, 6, 7 and 8 ensured at times 10 to 13. *)
Lemma depth_cache_lru_eviction_witness :
  let gl0 := {| is_gles := true; textures := ∅; depth_attachment := ∅ |} in
  (fun e => (attached_to e, last_used e)) <$>
    buffers (run [SetRequired true; Ensure 5 64 64 10; Ensure 6 64 64 11;
                  Ensure 7 64 64 12; Ensure 8 64 64 13] (gl0, initial)).2
  = [(8, 13); (6, 11); (7, 12)].
Proof.
  intros gl0.
  apply (proj2 (proj2 depth_cache_lru_eviction) gl0 5 6 7 8
           64 64 64 64 64 64 64 64 10 11 12 13).
  - apply (bool_decide_unpack (NoDup [5; 6; 7; 8])). vm_compute. exact I.
  - apply (bool_decide_unpack
             (Forall (fun fb => fb ≠ 0 ∧ fb ≠ -1) [5; 6; 7; 8])).
    vm_compute. exact I.
  - lia.
  - lia.
  - lia.
Defined.

(** C3 fails on the code.  One consumer requires depth, framebuffer 5 gets
    a depth buffer, the consumer releases ([set_required(false)] brings the
    counter to 0), a consumer requires depth again and framebuffer 5 is
    ensured at the same size.  After the release the cache still holds the
    entry although its texture (name 1) is deleted; the later
    [ensure_depth_buffer] hits that entry and keeps the deleted texture. *)
Theorem set_required_false_keeps_stale_entry :
  let gl0 := {| is_gles := true; textures := ∅; depth_attachment := ∅ |} in
  let stale := {| tex := 1; attached_to := 5; width := 100; height := 100;
                  last_used := 10 |} in
  let released :=
    run [SetRequired true; Ensure 5 100 100 10; SetRequired false]
        (gl0, initial) in
  let reused :=
    run [SetRequired true; Ensure 5 100 100 20] released in
  required_counter released.2 = 0
  /\ buffers released.2 = [stale]
  /\ (tex stale ∉ textures released.1)
  /\ buffers reused.2 = [stale]
  /\ (tex stale ∉ textures reused.1).
Proof.
  vm_compute. repeat split; try reflexivity; intros Hlive; discriminate Hlive.
Qed.

End DepthBufferSpec.

(** ** Effect hooks and the scan-out test *)

Module HooksSpec.

Import Hooks.

Lemma remove_all_filter {A} `{EqDecision A} (x : A) (l : safe_list_t A) :
  remove_all x l = filter (fun y => y ≠ x) l.
Proof.
  induction l as [|y l IH]; [done|]. simpl.
  destruct (decide (y = x)) as [-> | Hne].
  - by rewrite filter_cons_False by (intros Hne; by apply Hne).
  - by rewrite filter_cons_True, IH by done.
Qed.

Lemma remove_all_not_elem {A} `{EqDecision A} (x : A) (l : safe_list_t A) :
  x ∉ remove_all x l.
Proof.
  rewrite remove_all_filter. intros Hin.
  apply list_elem_of_filter in Hin as [Hne _]. by apply Hne.
Qed.

Lemma size_zero {A} (l : safe_list_t A) : (size l =? 0)%nat = true ↔ l = [].
Proof.
  unfold size. rewrite Nat.eqb_eq. apply length_zero_iff_nil.
Qed.

(** One round of the loop of [rem_effect] writes the stage it visits and
    leaves the others. *)
Lemma rem_effect_stage (hook : effect_hook_ptr) (m : effect_hook_manager_t)
    (type : output_effect_type_t) :
  effects (rem_effect hook m) type = remove_all hook (effects m type).
Proof.
  unfold rem_effect, all_effect_types, set_effects. simpl.
  destruct type; simpl; reflexivity.
Qed.

(** C10.  After [rem_effect hook], [hook] is in none of the four stage
    lists, whatever stages it was registered under and however often; each
    stage list is the one from before without the occurrences of [hook],
    so the other hooks keep their registrations and their order. *)
Theorem rem_effect_removes_everywhere (hook : effect_hook_ptr)
    (m : effect_hook_manager_t) (type : output_effect_type_t) :
  (hook ∉ effects (rem_effect hook m) type)
  ∧ effects (rem_effect hook m) type
    = filter (fun other => other ≠ hook) (effects m type)
  ∧ (∀ other, other ≠ hook →
       filter (fun h => h = other) (effects (rem_effect hook m) type)
       = filter (fun h => h = other) (effects m type)).
Proof.
  rewrite rem_effect_stage. split; [apply remove_all_not_elem|].
  split; [apply remove_all_filter|].
  intros other Hne. rewrite remove_all_filter.
  rewrite list_filter_filter. apply list_filter_iff.
  intros h. split; [tauto|]. intros ->. done.
Qed.

(** C9.  The effect-hook registry reports scan-out possible exactly when
    its OVERLAY and POST lists are empty (so the PRE and DAMAGE lists do not
    enter the answer); the postprocessing manager exactly when its chain is
    empty; and [do_direct_scanout] reaches [try_scanout_from_list] only
    when both report possible. *)
Theorem scanout_query_emptiness :
  (∀ m, can_scanout m = true
        ↔ effects m OUTPUT_EFFECT_OVERLAY = []
          ∧ effects m OUTPUT_EFFECT_POST = [])
  ∧ (∀ m m',
       effects m OUTPUT_EFFECT_OVERLAY = effects m' OUTPUT_EFFECT_OVERLAY →
       effects m OUTPUT_EFFECT_POST = effects m' OUTPUT_EFFECT_POST →
       can_scanout m = can_scanout m')
  ∧ (∀ p, post_can_scanout p = true ↔ post_effects p = [])
  ∧ (∀ r res,
       scanout_attempt r = Some res →
       can_scanout (effects_manager r) = true
       ∧ post_can_scanout (postprocessing r) = true)
  ∧ (∀ r, do_direct_scanout r = true →
       effects (effects_manager r) OUTPUT_EFFECT_OVERLAY = []
       ∧ effects (effects_manager r) OUTPUT_EFFECT_POST = []
       ∧ post_effects (postprocessing r) = []).
Proof.
  assert (∀ m, can_scanout m = true
        ↔ effects m OUTPUT_EFFECT_OVERLAY = []
          ∧ effects m OUTPUT_EFFECT_POST = []) as Hquery.
  { intros m. unfold can_scanout.
    rewrite andb_true_iff, !size_zero. done. }
  assert (∀ r res,
       scanout_attempt r = Some res →
       can_scanout (effects_manager r) = true
       ∧ post_can_scanout (postprocessing r) = true) as Hattempt.
  { intros r res. unfold scanout_attempt, impl_can_scanout.
    destruct (can_scanout (effects_manager r));
      destruct (post_can_scanout (postprocessing r)); [done|..];
      rewrite ?andb_false_r; simpl; discriminate. }
  split; [exact Hquery|]. split.
  { intros m m' Ho Hp. unfold can_scanout. by rewrite Ho, Hp. }
  split; [intros p; apply size_zero|].
  split; [exact Hattempt|].
  intros r Hdone. unfold do_direct_scanout in Hdone.
  destruct (scanout_attempt r) as [res|] eqn:Hatt; [|discriminate].
  destruct (Hattempt r res Hatt) as [He Hp].
  apply Hquery in He as [? ?]. apply size_zero in Hp. done.
Qed.

(** The theorem at a registry with one PRE hook and nothing else. *)
Lemma scanout_query_emptiness_witness :
  let m := add_effect 7%N OUTPUT_EFFECT_PRE no_effects in
  can_scanout m = true.
Proof.
  intros m.
  apply (proj1 scanout_query_emptiness m). split; reflexivity.
Defined.

End HooksSpec.

(** ** The transformer stack *)

Module TransformStackSpec.

Import TransformStack.

Implicit Types (ts : list added_transformer_t) (t : added_transformer_t)
  (m : transform_manager_node_t).

Lemma insert_position_le ts z : (insert_position ts z ≤ length ts)%nat.
Proof.
  induction ts as [|t ts IH]; simpl; [lia|].
  destruct (z_order t <? z); simpl; lia.
Qed.

(** Every entry before the position has a smaller z-order, and the entry at
    the position, if there is one, does not. *)
Lemma insert_position_before ts z :
  Forall (fun t => z_order t < z) (take (insert_position ts z) ts).
Proof.
  induction ts as [|t ts IH]; simpl; [constructor|].
  destruct (Z.ltb_spec (z_order t) z); simpl; [|constructor].
  by constructor.
Qed.

Lemma insert_position_at ts z t :
  ts !! insert_position ts z = Some t → z <= z_order t.
Proof.
  induction ts as [|t' ts IH]; simpl; [done|].
  destruct (Z.ltb_spec (z_order t') z); simpl; [done|].
  intros Heq. simplify_eq. done.
Qed.

Lemma vector_insert_cons {A} (pos : nat) (x y : A) (l : list A) :
  vector_insert (S pos) x (y :: l) = y :: vector_insert pos x l.
Proof. done. Qed.

Lemma insert_sorted ts new z :
  z_order new = z →
  StronglySorted z_le ts →
  StronglySorted z_le (vector_insert (insert_position ts z) new ts).
Proof.
  intros <-. induction ts as [|t ts IH]; intros Hsorted; simpl.
  - unfold vector_insert. simpl. repeat constructor.
  - apply StronglySorted_inv in Hsorted as [Hts Hall].
    destruct (Z.ltb_spec (z_order t) (z_order new)) as [Hlt | Hge].
    + rewrite vector_insert_cons. constructor; [by apply IH|].
      unfold vector_insert. apply Forall_app. split.
      * by apply Forall_take.
      * constructor; [unfold z_le; lia|]. by apply Forall_drop.
    + unfold vector_insert. simpl. constructor.
      * by constructor.
      * constructor; [done|].
        eapply Forall_impl; [exact Hall|]. unfold z_le. intros t' Ht'. lia.
Qed.

(** Among the entries of one z-order the new entry comes first. *)
Lemma insert_filter ts new (z k : Z) :
  z_order new = z →
  filter (fun t => z_order t = k) (vector_insert (insert_position ts z) new ts)
  = if decide (z = k)
    then new :: filter (fun t => z_order t = k) ts
    else filter (fun t => z_order t = k) ts.
Proof.
  intros <-. induction ts as [|t ts IH]; simpl.
  - unfold vector_insert. simpl. rewrite filter_cons.
    repeat destruct (decide _); done.
  - destruct (Z.ltb_spec (z_order t) (z_order new)) as [Hlt | Hge].
    + rewrite vector_insert_cons, !filter_cons, IH.
      repeat destruct (decide _); try done; lia.
    + unfold vector_insert. simpl. rewrite !filter_cons.
      repeat destruct (decide _); done.
Qed.

Lemma add_transformer_list transformer z nm m :
  transformers (_add_transformer transformer z nm m)
  = vector_insert (insert_position (transformers m) z)
      {| node := transformer; z_order := z; name := nm |} (transformers m).
Proof. done. Qed.

Lemma add_all_sorted ins m :
  StronglySorted z_le (transformers m) →
  StronglySorted z_le (transformers (add_all ins m)).
Proof.
  revert m. induction ins as [|t ins IH]; intros m Hsorted; [done|].
  simpl. apply IH. rewrite add_transformer_list.
  by apply insert_sorted.
Qed.

Lemma add_all_filter ins m (k : Z) :
  filter (fun t => z_order t = k) (transformers (add_all ins m))
  = rev (filter (fun t => z_order t = k) ins)
    ++ filter (fun t => z_order t = k) (transformers m).
Proof.
  revert m. induction ins as [|t ins IH]; intros m; [done|].
  simpl. rewrite IH, add_transformer_list.
  rewrite insert_filter by done. rewrite filter_cons.
  destruct t as [n z nm]. simpl.
  repeat destruct (decide _); try done.
  simpl. by rewrite <- app_assoc.
Qed.

(** C5 as worded fails for equal z-orders: the loop stops at the first
    entry whose z-order is not smaller, so a transformer added at z-order 1
    after another one at z-order 1 ends up before it, where the worded rule
    (before the first strictly greater one) puts it after. *)
Lemma add_transformer_tie_goes_first :
  let first := {| node := 1%nat; z_order := 1; name := "first" |} in
  let second := {| node := 2%nat; z_order := 1; name := "second" |} in
  let m0 := {| self := 0%nat; transformers := []; children := ∅ |} in
  transformers (add_all [first; second] m0) = [second; first]
  ∧ insert_position [first] 1 = 0%nat
  ∧ spec_insert_position [first] 1 = 1%nat
  ∧ insert_position [first] 1 ≠ spec_insert_position [first] 1.
Proof. vm_compute. repeat split; congruence. Qed.

(** C5 as the code has it.  [_add_transformer] puts the new entry right
    before the first entry whose z-order is not smaller than the new one
    (after every entry of smaller z-order); any run of insertions into an
    empty list leaves it sorted by ascending z-order, and among entries of
    one z-order the one inserted last comes first; the new node becomes the
    only child of the chosen parent (the node of the entry it was put
    before, or the manager itself at the end of the list) and takes over the
    children the parent had, all other children lists staying as they
    were. *)
Theorem add_transformer_sorted_splice :
  (∀ m transformer z nm,
     let pos := insert_position (transformers m) z in
     transformers (_add_transformer transformer z nm m)
     = take pos (transformers m)
       ++ {| node := transformer; z_order := z; name := nm |}
          :: drop pos (transformers m)
     ∧ Forall (fun t => z_order t < z) (take pos (transformers m))
     ∧ (∀ t, transformers m !! pos = Some t → z <= z_order t))
  ∧ (∀ ins m, transformers m = [] →
       StronglySorted z_le (transformers (add_all ins m)))
  ∧ (∀ ins m (k : Z), transformers m = [] →
       filter (fun t => z_order t = k) (transformers (add_all ins m))
       = rev (filter (fun t => z_order t = k) ins))
  ∧ (∀ m transformer z nm,
       let parent :=
         match transformers m !! insert_position (transformers m) z with
         | Some t => node t
         | None => self m
         end in
       let m' := _add_transformer transformer z nm m in
       transformer ≠ parent →
       get_children parent m' = [transformer]
       ∧ get_children transformer m' = get_children parent m
       ∧ (∀ n, n ≠ parent → n ≠ transformer →
               get_children n m' = get_children n m)).
Proof.
  split; [|split; [|split]].
  - intros m transformer z nm pos. split; [done|].
    split; [apply insert_position_before | apply insert_position_at].
  - intros ins m Hnil. apply add_all_sorted. rewrite Hnil. constructor.
  - intros ins m k Hnil. rewrite add_all_filter, Hnil. simpl.
    apply app_nil_r.
  - intros m transformer z nm parent m' Hne.
    unfold get_children, m', _add_transformer. simpl. fold parent.
    split; [|split].
    + rewrite lookup_insert_ne by done. by rewrite lookup_insert_eq.
    + by rewrite lookup_insert_eq.
    + intros n Hn1 Hn2. by rewrite !lookup_insert_ne by done.
Qed.

(** The theorem at the insertion of z-orders 5, then 3, then 5 again. *)
Lemma add_transformer_sorted_splice_witness :
  let m0 := {| self := 0%nat; transformers := [];
               children := {[ 0%nat := [9%nat] ]} |} in
  let t := {| node := 1%nat; z_order := 5; name := "T" |} in
  let u := {| node := 2%nat; z_order := 3; name := "U" |} in
  let v := {| node := 3%nat; z_order := 5; name := "V" |} in
  filter (fun e => z_order e = 5) (transformers (add_all [t; u; v] m0))
  = [v; t].
Proof.
  intros m0 t u v.
  apply (proj1 (proj2 (proj2 add_transformer_sorted_splice)) [t; u; v] m0 5).
  reflexivity.
Defined.

End TransformStackSpec.

(** ** The 2D view transformer *)

Module View2DSpec.

Import Geometry View2D.
#[local] Open Scope R_scope.

Lemma sin_cos_one (a : R) : sin a * sin a + cos a * cos a = 1.
Proof. pose proof (sin2_cos2 a) as H. unfold Rsqr in H. exact H. Qed.

(** Rotating by [a] and then by [- a] gives the point back. *)
Lemma rotate_xy_back (p : pointf_t) (a : R) :
  rotate_xy (rotate_xy p a) (- a) = p.
Proof.
  destruct p as [u v]. unfold rotate_xy. cbn [px py].
  rewrite cos_neg, sin_neg. pose proof (sin_cos_one a) as H.
  f_equal.
  - transitivity ((sin a * sin a + cos a * cos a) * u); [ring|].
    rewrite H. ring.
  - transitivity ((sin a * sin a + cos a * cos a) * v); [ring|].
    rewrite H. ring.
Qed.

Lemma rotate_xy_forth (p : pointf_t) (a : R) :
  rotate_xy (rotate_xy p (- a)) a = p.
Proof.
  rewrite <- (Ropp_involutive a) at 2. apply rotate_xy_back.
Qed.

Lemma point_sub_add (a b : pointf_t) : point_sub (point_add a b) b = a.
Proof.
  destruct a, b. unfold point_sub, point_add. cbn [px py]. f_equal; ring.
Qed.

(** C6.  Over the reals, for every point and every 2D transformer whose two
    scales are not zero, [to_global (to_local P) = P]. *)
Theorem to_global_to_local (t : view_2d_transformer_t) (P : pointf_t) :
  scale_x t <> 0 -> scale_y t <> 0 ->
  to_global t (to_local t P) = P.
Proof.
  intros Hx Hy. unfold to_global, to_local. cbv zeta.
  rewrite point_sub_add. cbn [px py].
  set (r2 := rotate_xy _ (angle t)).
  replace {| px := px r2 / scale_x t * scale_x t;
             py := py r2 / scale_y t * scale_y t |} with r2.
  2: { destruct r2 as [u v]. cbn [px py]. f_equal; field; assumption. }
  subst r2. rewrite rotate_xy_back. cbn [px py].
  destruct P as [X Y], (get_center (view t)) as [mx my].
  unfold point_add, point_sub. cbn [px py]. f_equal; ring.
Qed.

(** The theorem at a toplevel of 100x50 scaled by 2 and 3, turned by one
    radian and moved by (5, 7). *)
Lemma to_global_to_local_witness :
  let t := {| view := view_toplevel
                        {| x := 10; y := 20; width := 100; height := 50 |};
              scale_x := 2; scale_y := 3; angle := 1;
              translation_x := 5; translation_y := 7 |} in
  to_global t (to_local t {| px := 30; py := 40 |}) = {| px := 30; py := 40 |}.
Proof.
  intros t. apply to_global_to_local; simpl; lra.
Defined.

(** The other direction holds as well. *)
Lemma to_local_to_global (t : view_2d_transformer_t) (P : pointf_t) :
  scale_x t <> 0 -> scale_y t <> 0 ->
  to_local t (to_global t P) = P.
Proof.
  intros Hx Hy. unfold to_global, to_local. cbv zeta.
  rewrite point_sub_add. cbn [px py].
  set (r2 := rotate_xy _ (- angle t)).
  replace {| px := px r2 + translation_x t - translation_x t;
             py := py r2 + translation_y t - translation_y t |} with r2.
  2: { destruct r2 as [u v]. cbn [px py]. f_equal; ring. }
  subst r2. rewrite rotate_xy_forth. cbn [px py].
  destruct P as [X Y], (get_center (view t)) as [mx my].
  unfold point_add, point_sub. cbn [px py]. f_equal; field; assumption.
Qed.

End View2DSpec.

(** ** The 3D view transformer *)

Module View3DSpec.

Import Geometry View3D.
#[local] Open Scope R_scope.

(** Past the determinant test, [glm::inverse] divides by a number that is
    not zero. *)
Lemma glm_inverse_regular (a : dmat2) :
  singular_threshold <= Rabs (glm_determinant a) ->
  exists inv, glm_inverse a = Some inv.
Proof.
  intros Hbig. unfold glm_inverse.
  destruct (Req_dec_T (glm_determinant a) 0) as [Hz | Hnz]; [|eauto].
  exfalso. rewrite Hz, Rabs_R0 in Hbig. unfold singular_threshold in Hbig.
  lra.
Qed.

(** The matrix [glm::inverse] returns undoes the matrix it was given, so
    past the test [to_local] returns the solution of the system. *)
Lemma glm_inverse_solves (a inv : dmat2) (v : R * R) :
  glm_inverse a = Some inv ->
  dmat2_apply a (dmat2_apply inv v) = v.
Proof.
  unfold glm_inverse, glm_determinant.
  destruct (Req_dec_T _ 0) as [Hz | Hnz]; [discriminate|].
  intros Heq. injection Heq as <-. destruct v as [v1 v2].
  unfold dmat2_apply. cbn [m00 m01 m10 m11 fst snd].
  f_equal; field; exact Hnz.
Qed.

(** C7.  For every point, when the determinant of the 2x2 system built from
    the total transform has magnitude below [1e-6], [to_local] returns the
    invalid-coordinate sentinel in both components; and [to_local] always
    returns a point: it never reaches a division by a zero determinant. *)
Theorem to_local_singular (invalid_coordinate : R)
    (t : view_3d_transformer_t) (point : pointf_t) :
  let p := get_center_relative_coords (children_bounding_box t) point in
  let A := system_matrix (calculate_total_transform t) p in
  (Rabs (glm_determinant A) < 1 / 1000000 ->
   to_local invalid_coordinate t point
   = Some {| px := invalid_coordinate; py := invalid_coordinate |})
  /\ (exists q, to_local invalid_coordinate t point = Some q).
Proof.
  intros p A. unfold to_local. fold p. fold A.
  destruct (Rlt_dec (Rabs (glm_determinant A)) singular_threshold)
    as [Hsing | Hreg].
  - split; [reflexivity | eauto].
  - split; [intros Hlt; exfalso; apply Hreg; exact Hlt|].
    destruct (glm_inverse_regular A) as [inv ->]; [|eauto].
    apply Rnot_lt_le. exact Hreg.
Qed.

(** The theorem at a view whose x and y scales are 0, which makes the
    system exactly singular. *)
Lemma to_local_singular_witness :
  let flat :=
    {| children_bounding_box :=
         {| x := 0; y := 0; width := 100; height := 50 |};
       translation := glm_scale 1 1 1;
       view_proj := glm_scale 1 1 1;
       rotation := glm_scale 1 1 1;
       scaling := glm_scale 0 0 1 |} in
  to_local (-1) flat {| px := 10; py := 20 |}
  = Some {| px := -1; py := -1 |}.
Proof.
  intros flat.
  apply (proj1 (to_local_singular (-1) flat {| px := 10; py := 20 |})).
  unfold glm_determinant, system_matrix, calculate_total_transform, mat4_mul,
    glm_scale, flat. cbn.
  match goal with |- Rabs ?e < _ => replace e with 0 by ring end.
  rewrite Rabs_R0. lra.
Defined.

End View3DSpec.

(** ** The crossfade blend curve *)

Module CrossfadeSpec.

Import Crossfade.
#[local] Open Scope R_scope.

Lemma std_pow_half (x : R) : 0 <= x -> std_pow x (1 / N) = sqrt x.
Proof.
  intros Hx. unfold std_pow, N.
  destruct (Rle_dec x 0) as [Hle | Hgt].
  - replace x with 0 by lra. symmetry. apply sqrt_0.
  - replace (1 / 2) with (/ 2) by lra. apply Rpower_sqrt. lra.
Qed.

Lemma std_pow_square (x : R) : 0 <= x -> std_pow x N = x * x.
Proof.
  intros Hx. unfold std_pow, N.
  destruct (Rle_dec x 0) as [Hle | Hgt].
  - replace x with 0 by lra. ring.
  - replace 2 with (INR 2) by (simpl; lra).
    rewrite Rpower_pow by lra. simpl. ring.
Qed.

Lemma blend_lower (a : R) : a < 1 / 2 -> blend a = lower_piece a.
Proof.
  intros Ha. unfold blend, lower_piece.
  destruct (Rlt_dec a (1 / 2)) as [_ | Hn]; [|contradiction].
  destruct (Rle_dec 0 (a * 2)) as [Hpos | Hneg].
  - now rewrite std_pow_half.
  - unfold std_pow. destruct (Rle_dec (a * 2) 0) as [Hle | Hgt]; [|lra].
    rewrite sqrt_neg_0 by lra. reflexivity.
Qed.

Lemma blend_upper (a : R) : 1 / 2 <= a -> blend a = upper_piece a.
Proof.
  intros Ha. unfold blend, upper_piece.
  destruct (Rlt_dec a (1 / 2)) as [Hn | _]; [lra|].
  rewrite std_pow_square by lra. reflexivity.
Qed.

Lemma blend_spec (a : R) : blend a = spec_blend a.
Proof.
  unfold spec_blend. destruct (Rlt_dec a (1 / 2)) as [Hlt | Hge].
  - now apply blend_lower.
  - apply blend_upper. lra.
Qed.

Lemma lower_continuous : continuity_pt lower_piece (1 / 2).
Proof.
  apply derivable_continuous_pt. unfold lower_piece. reg. lra.
Qed.

Lemma upper_continuous : continuity_pt upper_piece (1 / 2).
Proof.
  apply derivable_continuous_pt. unfold upper_piece. reg.
Qed.

(** A function that follows [f] below [c] and [g] from [c] on is continuous
    at [c] when [f] and [g] are and they meet there. *)
Lemma continuity_pt_glue (f g h : R -> R) (c : R) :
  (forall x, x < c -> h x = f x) ->
  (forall x, c <= x -> h x = g x) ->
  f c = g c ->
  continuity_pt f c -> continuity_pt g c -> continuity_pt h c.
Proof.
  intros Hf Hg Hfg Cf Cg eps Heps.
  destruct (Cf eps Heps) as (d1 & Hd1 & Hlim1).
  destruct (Cg eps Heps) as (d2 & Hd2 & Hlim2).
  exists (Rmin d1 d2). split; [apply Rmin_pos; assumption|].
  intros x [Hdom Hdist].
  assert (Rdist x c < d1) as Hx1
    by (eapply Rlt_le_trans; [exact Hdist | apply Rmin_l]).
  assert (Rdist x c < d2) as Hx2
    by (eapply Rlt_le_trans; [exact Hdist | apply Rmin_r]).
  simpl in *. rewrite (Hg c) by lra.
  destruct (Rlt_dec x c) as [Hlt | Hge].
  - rewrite (Hf x Hlt), <- Hfg. apply Hlim1. split; assumption.
  - rewrite (Hg x) by lra. apply Hlim2. split; assumption.
Qed.

(** C8.  The snapshot is drawn with opacity [1 - blend], where for a
    progress [a] in [[0, 1]] the blend is [sqrt (2a) / 2] below one half and
    [((a - 0.5) * 2)^2 / 2 + 0.5] from one half on; the opacity is 1 at
    progress 0 and 0 at progress 1, and the blend is continuous at one
    half. *)
Theorem crossfade_blend_curve :
  (forall a, 0 <= a <= 1 ->
     render_opacity a = 1 - blend a
     /\ (a < 1 / 2 -> blend a = sqrt (2 * a) / 2)
     /\ (1 / 2 <= a -> blend a = ((a - 1 / 2) * 2) ^ 2 / 2 + 1 / 2))
  /\ render_opacity 0 = 1
  /\ render_opacity 1 = 0
  /\ continuity_pt blend (1 / 2).
Proof.
  split; [|split; [|split]].
  - intros a Ha. split; [reflexivity|]. split.
    + intros Hlt. rewrite blend_lower by exact Hlt. unfold lower_piece.
      now rewrite (Rmult_comm a 2).
    + intros Hge. rewrite blend_upper by exact Hge. unfold upper_piece.
      simpl. field.
  - unfold render_opacity. rewrite blend_lower by lra. unfold lower_piece.
    rewrite Rmult_0_l, sqrt_0. lra.
  - unfold render_opacity. rewrite blend_upper by lra. unfold upper_piece.
    lra.
  - apply (continuity_pt_glue lower_piece upper_piece).
    + apply blend_lower.
    + apply blend_upper.
    + unfold lower_piece, upper_piece.
      replace (1 / 2 * 2) with 1 by lra. rewrite sqrt_1. lra.
    + apply lower_continuous.
    + apply upper_continuous.
Qed.

(** The theorem at progress one quarter. *)
Lemma crossfade_blend_curve_witness :
  render_opacity (1 / 4) = 1 - blend (1 / 4)
  /\ blend (1 / 4) = sqrt (2 * (1 / 4)) / 2.
Proof.
  destruct (proj1 crossfade_blend_curve (1 / 4)) as (Hop & Hlow & _).
  - lra.
  - split; [exact Hop|]. apply Hlow. lra.
Defined.

End CrossfadeSpec.

(** ** The pacer over whole runs *)

Module PacerRuns.

Import Pacer PacerSpec FrameCallback.

(** [skip_frame] makes the next [start_frame] a pure time stamp: however
    long the frame took, the delay, the window, the timers and the factors
    are the ones from before, and the pageflip time is [now]. *)
Theorem skip_frame_then_start_frame (o : options) (now : Z)
    (s : repaint_delay_manager_t) :
  let s' := start_frame o now (skip_frame s) in
  delay s' = delay s
  /\ increase_window s' = increase_window s
  /\ last_increase s' = last_increase s
  /\ expand_inc_window_on_miss s' = expand_inc_window_on_miss s
  /\ consecutive_decrease s' = consecutive_decrease s
  /\ last_pageflip s' = now.
Proof. cbv zeta. unfold start_frame, skip_frame. simpl. tauto. Qed.

Lemma start_frame_delay_config (o : options) (now : Z)
    (s : repaint_delay_manager_t) :
  0 <= delay s <= config_delay o s ->
  0 <= delay (start_frame o now s) <= config_delay o s.
Proof.
  intros Hin.
  pose proof (delay_bounds_ordered o s) as [Hord Hcap].
  unfold start_frame.
  destruct (last_pageflip s =? -1); [exact Hin|].
  destruct (_ <=? on_time_thresh s); cbn [delay set_last_pageflip
    set_consecutive_decrease reset_increase_timer set_expand].
  - destruct (increase_window s <=? _);
      cbn [delay set_expand reset_increase_timer]; [|exact Hin].
    rewrite update_delay_delay with (s0 := s) by reflexivity.
    match goal with
    | |- _ <= clamp ?v ?lo ?hi <= _ =>
        pose proof (clamp_bounds v lo hi (proj2 Hord))
    end. lia.
  - destruct (0 <=? _); cbn [delay set_increase_window set_consecutive_decrease];
      rewrite update_delay_delay with (s0 := s) by reflexivity;
      match goal with
      | |- _ <= clamp ?v ?lo ?hi <= _ =>
          pose proof (clamp_bounds v lo hi (proj2 Hord))
      end; lia.
Qed.

Lemma run_delay_config (o : options) (times : list Z)
    (s : repaint_delay_manager_t) :
  0 <= delay s <= config_delay o s ->
  0 <= delay (run o times s) <= config_delay o s.
Proof.
  revert s. induction times as [|t times IH]; intros s Hin; [exact Hin|].
  simpl.
  pose proof (start_frame_delay_config o t s Hin) as Hstep.
  pose proof (start_frame_refresh o t s) as Hr.
  assert (config_delay o (start_frame o t s) = config_delay o s) as Hcfg
    by (unfold config_delay, refresh_msec; now rewrite Hr).
  rewrite <- Hcfg in Hstep. specialize (IH _ Hstep). now rewrite Hcfg in IH.
Qed.

(** From a freshly constructed pacer, with fixed options and refresh
    interval, the delay handed to the repaint timer after any sequence of
    wake-ups is between 0 and [max 0 (refresh_ms - max_render_time)]. *)
Theorem run_initial_delay_range (o : options) (refresh : Z)
    (times : list Z) :
  0 <= get_delay (run o times (initial refresh))
    <= Z.max 0 (Z.quot refresh 1000000 - max_render_time o).
Proof.
  apply (run_delay_config o times (initial refresh)).
  unfold config_delay. simpl. lia.
Qed.

Lemma run_delay_bounds (o : options) (times : list Z)
    (s : repaint_delay_manager_t) :
  (delay_bounds o s).1 <= delay s <= (delay_bounds o s).2 ->
  (delay_bounds o s).1 <= delay (run o times s) <= (delay_bounds o s).2.
Proof.
  revert s. induction times as [|t times IH]; intros s Hin; [exact Hin|].
  simpl.
  pose proof (start_frame_delay_range o t s Hin) as Hstep.
  pose proof (start_frame_refresh o t s) as Hr.
  rewrite <- (delay_bounds_refresh o s _ Hr) in Hstep.
  specialize (IH _ Hstep).
  now rewrite (delay_bounds_refresh o s _ Hr) in IH.
Qed.

(** With the render-time budget unconfigured ([-1]) the frame callback of a
    freshly constructed pacer never arms the repaint timer: after any
    sequence of wake-ups the next active frame event paints at once. *)
Theorem unconfigured_budget_paints_now (o : options) (refresh now : Z)
    (times : list Z) :
  max_render_time o = -1 ->
  (on_frame false o now (run o times (initial refresh))).2 = paint_now.
Proof.
  intros Hm.
  pose proof (run_delay_bounds o (times ++ [now]) (initial refresh)) as Hrun.
  unfold delay_bounds in Hrun. rewrite Hm in Hrun. simpl in Hrun.
  specialize (Hrun ltac:(lia)).
  unfold run in Hrun. rewrite fold_left_app in Hrun. simpl in Hrun.
  unfold on_frame. cbv zeta. unfold get_delay, run.
  destruct (Z.ltb_spec (delay (start_frame o now
    (fold_left (fun st t => start_frame o t st) times (initial refresh)))) 1);
    [reflexivity | lia].
Qed.

Lemma unconfigured_budget_paints_now_witness :
  (on_frame false {| max_render_time := -1; dynamic_delay := true |} 400
     (run {| max_render_time := -1; dynamic_delay := true |}
          [0; 200; 216; 300] (initial 16000000))).2
  = paint_now.
Proof.
  apply unconfigured_budget_paints_now. reflexivity.
Defined.

(** The backoff factors the pacer can reach. *)
Lemma start_frame_backoff_power (o : options) (now : Z)
    (s : repaint_delay_manager_t) :
  In (consecutive_decrease s) [1; 2; 4; 8; 16; 32] ->
  In (consecutive_decrease (start_frame o now s)) [1; 2; 4; 8; 16; 32].
Proof.
  intros Hin. unfold start_frame.
  destruct (last_pageflip s =? -1); [exact Hin|].
  destruct (_ <=? on_time_thresh s);
    cbn [consecutive_decrease set_last_pageflip set_consecutive_decrease
         reset_increase_timer].
  - simpl. tauto.
  - destruct (update_delay_fields o (- consecutive_decrease s) s)
      as (_ & _ & _ & He & Hcd & _).
    cbn [expand_inc_window_on_miss set_consecutive_decrease].
    destruct (0 <=? _);
      cbn [consecutive_decrease set_increase_window set_consecutive_decrease];
      rewrite Hcd; simpl in Hin;
      destruct Hin as [<- | [<- | [<- | [<- | [<- | [<- | []]]]]]];
      vm_compute; tauto.
Qed.

(** From a freshly constructed pacer, after any sequence of wake-ups the
    increase window is within [[200, 30000]] ms and the backoff factor is
    one of 1, 2, 4, 8, 16, 32. *)
Theorem run_initial_window_and_backoff (o : options) (refresh : Z)
    (times : list Z) :
  let s := run o times (initial refresh) in
  200 <= increase_window s <= 30000
  /\ In (consecutive_decrease s) [1; 2; 4; 8; 16; 32].
Proof.
  cbv zeta.
  assert (forall s, well_formed s ->
            In (consecutive_decrease s) [1; 2; 4; 8; 16; 32] ->
            well_formed (run o times s)
            /\ In (consecutive_decrease (run o times s)) [1; 2; 4; 8; 16; 32])
    as Hrun.
  { induction times as [|t times IH]; intros s Hwf Hpow; [tauto|].
    simpl. apply IH.
    - now apply start_frame_well_formed.
    - now apply start_frame_backoff_power. }
  destruct (Hrun (initial refresh)) as [[Hw _] Hp].
  - unfold well_formed, initial, MIN_INCREASE_WINDOW, MAX_INCREASE_WINDOW.
    cbn [increase_window consecutive_decrease]. lia.
  - simpl. tauto.
  - split; [exact Hw | exact Hp].
Qed.

(** With the delay inside the configured range, a missed frame never raises
    the delay and an on-time frame never lowers it. *)
Theorem start_frame_delay_direction (o : options) (now : Z)
    (s : repaint_delay_manager_t) :
  last_pageflip s <> -1 ->
  (delay_bounds o s).1 <= delay s <= (delay_bounds o s).2 ->
  0 <= consecutive_decrease s ->
  (on_time_thresh s < now - last_pageflip s ->
   delay (start_frame o now s) <= delay s)
  /\ (now - last_pageflip s <= on_time_thresh s ->
      delay s <= delay (start_frame o now s)).
Proof.
  intros Hvalid Hin Hcd.
  pose proof (delay_bounds_ordered o s) as [Hord _].
  unfold start_frame. rewrite (proj2 (Z.eqb_neq _ _) Hvalid).
  destruct (Z.leb_spec (now - last_pageflip s) (on_time_thresh s))
    as [Hon | Hmiss]; (split; [intros ?|intros ?]); try lia.
  - cbn [delay set_last_pageflip set_consecutive_decrease].
    destruct (increase_window s <=? _);
      cbn [delay set_expand reset_increase_timer]; [|lia].
    rewrite update_delay_delay with (s0 := s) by reflexivity.
    cbn [delay set_increase_window].
    rewrite clamp_min_max by lia. lia.
  - cbn [delay set_last_pageflip reset_increase_timer].
    destruct (0 <=? _);
      cbn [delay set_increase_window set_consecutive_decrease];
      rewrite update_delay_delay with (s0 := s) by reflexivity;
      rewrite clamp_min_max by lia; lia.
Qed.

Lemma start_frame_delay_direction_witness :
  let o := {| max_render_time := 6; dynamic_delay := true |} in
  let s := {| delay := 5; increase_window := 200; last_increase := 70;
              expand_inc_window_on_miss := 3; consecutive_decrease := 2;
              last_pageflip := 100; refresh_nsec := 16666666 |} in
  delay (start_frame o 130 s) <= delay s.
Proof.
  intros o s.
  apply (proj1 (start_frame_delay_direction o 130 s
                  ltac:(simpl; lia) ltac:(vm_compute; split; discriminate)
                  ltac:(simpl; lia))).
  vm_compute. reflexivity.
Defined.

End PacerRuns.

(** ** The depth-buffer cache: lookups, reallocation and freeing *)

Module DepthBufferMore.

Import DepthBuffer DepthBufferSpec.

Implicit Types (gl : gl_state) (m : depth_buffer_manager_t)
  (bufs : list depth_buffer_t) (b : depth_buffer_t).

(** The index [find_buffer] returns is inside the vector it leaves, and no
    entry before it is attached to [fb]. *)
Lemma find_buffer_index (fb : Z) bufs :
  let r := find_buffer fb bufs in
  (r.1 < length r.2)%nat
  ∧ (∀ j b, (j < r.1)%nat → r.2 !! j = Some b → attached_to b ≠ fb).
Proof.
  unfold find_buffer.
  destruct (list_find _ bufs) as [[i b]|] eqn:Hfind.
  - apply list_find_Some in Hfind as (Hlook & Hatt & Hfirst). simpl. split.
    + by eapply lookup_lt_Some.
    + intros j b' Hj Hb'. by eapply Hfirst.
  - apply list_find_None in Hfind.
    assert (∀ j b, bufs !! j = Some b → attached_to b ≠ fb) as Hnone.
    { intros j b Hb. eapply Forall_lookup_1 in Hfind; eauto. }
    destruct (decide _) as [Hlt | Hfull]; simpl.
    + split; [rewrite length_app; simpl; lia|].
      intros j b Hj Hb. rewrite lookup_app_l in Hb by done. eauto.
    + split; [|eauto]. apply oldest_lt. intros ->. simpl in Hfull.
      unfold MAX_BUFFERS in Hfull. lia.
Qed.

(** After [attach_buffer] the entry at the index is attached to [fb] with
    the requested size, and the other entries are the ones from before. *)
Lemma attach_buffer_entry (i : nat) (fb w h now : Z) gl bufs :
  (i < length bufs)%nat →
  let r := attach_buffer i fb w h now gl bufs in
  (∃ b, r.2 !! i = Some b ∧ attached_to b = fb ∧ width b = w ∧ height b = h)
  ∧ (∀ j, j ≠ i → r.2 !! j = bufs !! j).
Proof.
  intros Hi. unfold attach_buffer.
  destruct (lookup_lt_is_Some_2 bufs i Hi) as [b Hb]. rewrite Hb.
  destruct (decide _) as [(Ha & Hw & Hh) | Hdiff]; simpl.
  - split; [eauto|done].
  - split.
    + eexists. rewrite list_lookup_insert_eq by done. done.
    + intros j Hj. by rewrite list_lookup_insert_ne.
Qed.

(** Whenever [ensure_depth_buffer] is not a no-op (a nonzero framebuffer
    and a positive counter), the cache afterwards has an entry attached to
    that framebuffer with the requested width and height. *)
Theorem ensure_entry_present (fb w h now : Z) gl m :
  fb ≠ 0 → 0 < required_counter m →
  ∃ b, b ∈ buffers (ensure_depth_buffer fb w h now gl m).2
       ∧ attached_to b = fb ∧ width b = w ∧ height b = h.
Proof.
  intros Hfb Hcnt. unfold ensure_depth_buffer.
  rewrite decide_False by lia.
  pose proof (find_buffer_index fb (buffers m)) as [Hidx _].
  destruct (find_buffer fb (buffers m)) as [i bufs]. simpl in Hidx.
  pose proof (attach_buffer_entry i fb w h now gl bufs Hidx)
    as [(b & Hb & Hfields) _].
  destruct (attach_buffer i fb w h now gl bufs) as [gl' bufs']. simpl in *.
  exists b. split; [by eapply list_elem_of_lookup_2 | done].
Qed.

Lemma ensure_entry_present_witness :
  let gl0 := {| is_gles := true; textures := ∅; depth_attachment := ∅ |} in
  let m := {| required_counter := 1; buffers := [] |} in
  ∃ b, b ∈ buffers (ensure_depth_buffer 5 64 48 10 gl0 m).2
       ∧ attached_to b = 5 ∧ width b = 64 ∧ height b = 48.
Proof.
  intros gl0 m. apply ensure_entry_present; [discriminate | simpl; lia].
Defined.

Lemma ensure_run (fb w h now : Z) gl m :
  ¬ (fb = 0 ∨ required_counter m <= 0) →
  ensure_depth_buffer fb w h now gl m
  = ((attach_buffer (find_buffer fb (buffers m)).1 fb w h now gl
        (find_buffer fb (buffers m)).2).1,
     {| required_counter := required_counter m;
        buffers := (attach_buffer (find_buffer fb (buffers m)).1 fb w h now gl
                      (find_buffer fb (buffers m)).2).2 |}).
Proof.
  intros Hrun. unfold ensure_depth_buffer. rewrite decide_False by done.
  destruct (find_buffer fb (buffers m)) as [i bufs]. simpl.
  by destruct (attach_buffer i fb w h now gl bufs).
Qed.

(** Ensuring the same framebuffer at the same size a second time changes
    nothing, neither in the cache nor in GL, at whatever time it happens:
    a hit does not refresh [last_used]. *)
Theorem ensure_idempotent (fb w h t1 t2 : Z) gl m :
  let st := ensure_depth_buffer fb w h t1 gl m in
  ensure_depth_buffer fb w h t2 st.1 st.2 = st.
Proof.
  cbv zeta.
  destruct (decide (fb = 0 ∨ required_counter m <= 0)) as [Hskip | Hrun].
  { assert (∀ t, ensure_depth_buffer fb w h t gl m = (gl, m)) as Hnoop
      by (intros t; unfold ensure_depth_buffer; by rewrite decide_True).
    rewrite (Hnoop t1). simpl. apply Hnoop. }
  rewrite (ensure_run fb w h t1 gl m Hrun).
  pose proof (find_buffer_index fb (buffers m)) as [Hidx Hfirst].
  destruct (find_buffer fb (buffers m)) as [i bufs]. simpl in Hidx, Hfirst.
  cbn [fst snd].
  pose proof (attach_buffer_entry i fb w h t1 gl bufs Hidx)
    as [(b & Hb & Ha & Hw & Hh) Hother].
  pose proof (attach_buffer_length i fb w h t1 gl bufs) as Hlen.
  destruct (attach_buffer i fb w h t1 gl bufs) as [gl' bufs']. simpl in *.
  assert (list_find (fun b => attached_to b = fb) bufs' = Some (i, b))
    as Hfind.
  { apply list_find_Some. split; [done|]. split; [done|].
    intros j b' Hb' Hj. apply (Hfirst j b'); [done|].
    rewrite <- Hother by lia. done. }
  unfold ensure_depth_buffer. cbn [fst snd required_counter buffers].
  rewrite decide_False by done.
  unfold find_buffer. rewrite Hfind. unfold attach_buffer. rewrite Hb.
  by rewrite decide_True.
Qed.

(** A hit at another size reallocates in place: the entry keeps its index
    and is rewritten for the new size and time, the other entries stay,
    the old texture (if the entry had one) is deleted, and the newly
    generated texture is alive and is the depth attachment of [fb]. *)
Theorem ensure_resize_reallocates (fb w h now : Z) gl m (i : nat) b :
  fb ≠ 0 → 0 < required_counter m →
  buffers m !! i = Some b →
  (∀ j b', buffers m !! j = Some b' → (j < i)%nat → attached_to b' ≠ fb) →
  attached_to b = fb → (width b ≠ w ∨ height b ≠ h) →
  tex b ≠ NO_TEXTURE →
  let st := ensure_depth_buffer fb w h now gl m in
  ∃ name,
    buffers st.2 = <[ i := {| tex := name; attached_to := fb; width := w;
                              height := h; last_used := now |} ]> (buffers m)
    ∧ textures st.1 = {[ name ]} ∪ (textures gl ∖ {[ tex b ]})
    ∧ depth_attachment st.1 !! fb = Some name
    ∧ name ≠ 0%N.
Proof.
  intros Hfb Hcnt Hlook Hfirst Hatt Hsize Htex. cbv zeta.
  unfold ensure_depth_buffer. rewrite decide_False by lia.
  assert (list_find (fun b => attached_to b = fb) (buffers m) = Some (i, b))
    as Hfind by (apply list_find_Some; eauto).
  unfold find_buffer. rewrite Hfind. unfold attach_buffer. rewrite Hlook.
  rewrite decide_False by (intros (_ & Hw & Hh); destruct Hsize; done).
  unfold free_buffer. rewrite decide_False by done.
  unfold glGenTextures, glDeleteTextures, glFramebufferTexture2D. simpl.
  eexists. split; [reflexivity|]. split; [reflexivity|].
  split; [apply lookup_insert_eq|].
  intros Hzero.
  pose proof (is_fresh ({[0%N]} ∪ textures gl ∖ {[tex b]})) as Hfresh.
  apply Hfresh. rewrite Hzero. apply elem_of_union_l.
  by apply elem_of_singleton.
Qed.

Lemma ensure_resize_reallocates_witness :
  let gl := {| is_gles := true; textures := {[ 1%N ]};
               depth_attachment := {[ 5 := 1%N ]} |} in
  let old := {| tex := 1; attached_to := 5; width := 64; height := 48;
                last_used := 10 |} in
  let m := {| required_counter := 1; buffers := [old] |} in
  ∃ name,
    buffers (ensure_depth_buffer 5 128 96 20 gl m).2
    = <[ 0%nat := {| tex := name; attached_to := 5; width := 128;
                     height := 96; last_used := 20 |} ]> (buffers m)
    ∧ textures (ensure_depth_buffer 5 128 96 20 gl m).1
      = {[ name ]} ∪ (textures gl ∖ {[ tex old ]})
    ∧ depth_attachment (ensure_depth_buffer 5 128 96 20 gl m).1 !! 5
      = Some name
    ∧ name ≠ 0%N.
Proof.
  intros gl old m.
  apply (ensure_resize_reallocates 5 128 96 20 gl m 0 old).
  - discriminate.
  - simpl. lia.
  - reflexivity.
  - intros j b' _ Hj. lia.
  - reflexivity.
  - left. simpl. discriminate.
  - simpl. discriminate.
Defined.

Lemma NoDup_insert_fresh {A} (l : list A) (i : nat) (x : A) :
  NoDup l → x ∉ l → NoDup (<[ i := x ]> l).
Proof.
  revert i. induction l as [|y l IH]; intros i Hnd Hx; [done|].
  apply NoDup_cons in Hnd as [Hy Hnd].
  apply not_elem_of_cons in Hx as [Hxy Hx].
  destruct i as [|i]; simpl.
  - apply NoDup_cons. done.
  - apply NoDup_cons. split; [|by apply IH].
    intros Hin. apply list_elem_of_lookup in Hin as [j Hj].
    destruct (decide (i = j)) as [-> | Hne].
    + pose proof (lookup_lt_Some _ _ _ Hj) as Hlt.
      rewrite length_insert in Hlt.
      rewrite list_lookup_insert_eq in Hj by done.
      by simplify_eq.
    + rewrite list_lookup_insert_ne in Hj by done.
      apply Hy. by eapply list_elem_of_lookup_2.
Qed.

Lemma NoDup_snoc_fresh {A} (l : list A) (x : A) :
  NoDup l → x ∉ l → NoDup (l ++ [x]).
Proof.
  intros Hnd Hx. apply NoDup_app. split; [done|]. split.
  - intros y Hy Hin. apply list_elem_of_singleton in Hin as ->. done.
  - apply NoDup_singleton.
Qed.

Lemma ensure_attached_nodup (fb w h now : Z) gl m :
  NoDup (attached_to <$> buffers m) →
  NoDup (attached_to <$> buffers (ensure_depth_buffer fb w h now gl m).2).
Proof.
  intros Hnd.
  destruct (decide (fb = 0 ∨ required_counter m <= 0)) as [Hskip | Hrun].
  { unfold ensure_depth_buffer. by rewrite decide_True. }
  rewrite (ensure_run fb w h now gl m Hrun). cbn [snd buffers].
  unfold find_buffer.
  destruct (list_find _ (buffers m)) as [[i b]|] eqn:Hfind.
  - apply list_find_Some in Hfind as (Hlook & Hatt & _). cbn [fst snd].
    unfold attach_buffer. rewrite Hlook.
    destruct (decide _); cbn [snd]; [done|].
    unfold glGenTextures. cbn [snd].
    rewrite list_fmap_insert. cbn [attached_to].
    rewrite list_insert_id; [done|].
    by rewrite list_lookup_fmap, Hlook, <- Hatt.
  - apply list_find_None in Hfind.
    assert (fb ∉ attached_to <$> buffers m) as Hfresh.
    { intros Hin. apply list_elem_of_fmap in Hin as (b & -> & Hb).
      eapply Forall_forall in Hfind; eauto. }
    destruct (decide _) as [Hlt | Hfull]; cbn [fst snd].
    + unfold attach_buffer.
      rewrite lookup_app_r, Nat.sub_diag by done. cbn [lookup list_lookup].
      destruct (decide _) as [(Ha & _ & _) | Hdiff]; cbn [snd].
      * rewrite fmap_app. cbn [fmap list_fmap]. rewrite Ha.
        by apply NoDup_snoc_fresh.
      * unfold glGenTextures. cbn [snd].
        rewrite insert_app_r_alt, Nat.sub_diag by done. cbn [insert list_insert].
        rewrite fmap_app. cbn [fmap list_fmap attached_to].
        by apply NoDup_snoc_fresh.
    + assert (buffers m ≠ []) as Hne.
      { intros Hnil. rewrite Hnil in Hfull. simpl in Hfull.
        unfold MAX_BUFFERS in Hfull. lia. }
      destruct (oldest_spec _ Hne) as (victim & Hlook & _).
      unfold attach_buffer. rewrite Hlook.
      rewrite decide_False.
      2: { intros (Ha & _). eapply Forall_lookup_1 in Hfind; eauto. }
      unfold glGenTextures. cbn [snd].
      rewrite list_fmap_insert. cbn [attached_to].
      by apply NoDup_insert_fresh.
Qed.

(** Starting from an empty cache, after any run of calls no two entries
    are attached to the same framebuffer. *)
Theorem run_attached_nodup (calls : list call) gl :
  NoDup (attached_to <$> buffers (run calls (gl, initial)).2).
Proof.
  assert (∀ st, NoDup (attached_to <$> buffers st.2) →
                NoDup (attached_to <$> buffers (run calls st).2)) as Hrun.
  { induction calls as [|c calls IH]; intros st Hnd; [done|].
    simpl. apply IH. destruct st as [gl' m], c as [fb w h now | require];
      simpl in *.
    - by apply ensure_attached_nodup.
    - by rewrite set_required_buffers. }
  apply Hrun. simpl. apply NoDup_nil_2.
Qed.




End DepthBufferMore.

(** ** Hooks over a whole paint, and the postprocessing chain *)

Module PaintSpec.

Import Hooks HooksSpec Paint.

Lemma remove_all_absent {A} `{EqDecision A} (x : A) (l : safe_list_t A) :
  x ∉ l → remove_all x l = l.
Proof.
  induction l as [|y l IH]; intros Hx; [done|].
  apply not_elem_of_cons in Hx as [Hxy Hx]. simpl.
  rewrite decide_False by done. by rewrite IH.
Qed.

Lemma remove_all_app {A} `{EqDecision A} (x : A) (l1 l2 : safe_list_t A) :
  remove_all x (l1 ++ l2) = remove_all x l1 ++ remove_all x l2.
Proof.
  induction l1 as [|y l1 IH]; [done|]. simpl.
  destruct (decide (y = x)); [done|]. simpl. by rewrite IH.
Qed.

(** Registering a hook that is registered nowhere and removing it again
    gives back every stage list as it was. *)
Theorem add_then_rem_effect (hook : effect_hook_ptr)
    (type : output_effect_type_t) (m : effect_hook_manager_t) :
  (∀ t, hook ∉ effects m t) →
  ∀ t, effects (rem_effect hook (add_effect hook type m)) t = effects m t.
Proof.
  intros Hfresh t. rewrite rem_effect_stage.
  unfold add_effect, set_effects, push_back. simpl.
  destruct (decide (t = type)) as [-> | Hne].
  - rewrite remove_all_app, remove_all_absent by done. simpl.
    rewrite decide_True by done. apply app_nil_r.
  - by apply remove_all_absent.
Qed.

Lemma add_then_rem_effect_witness :
  let m := add_effect 3%N OUTPUT_EFFECT_POST no_effects in
  effects (rem_effect 7%N (add_effect 7%N OUTPUT_EFFECT_POST m))
          OUTPUT_EFFECT_POST
  = effects m OUTPUT_EFFECT_POST.
Proof.
  intros m. apply add_then_rem_effect.
  intros t. destruct t; vm_compute; intros Hin;
    repeat (apply elem_of_cons in Hin as [Hin | Hin]; [discriminate|]);
    by apply elem_of_nil in Hin.
Defined.

(** A hook call in a paint comes from the stage list it is registered in. *)
Lemma paint_effect_registered (r : impl) (next_frame : bool)
    (type : output_effect_type_t) (hook : effect_hook_ptr) :
  run_effect type hook ∈ paint r next_frame →
  hook ∈ effects (effects_manager r) type.
Proof.
  assert (∀ t, run_effect type hook ∈ run_effects t (effects_manager r) →
               hook ∈ effects (effects_manager r) type) as Hstage.
  { intros t Hin. unfold run_effects in Hin.
    apply list_elem_of_fmap in Hin as (h & Heq & Hh). by simplify_eq. }
  unfold paint. rewrite !elem_of_app.
  intros [Hin | [Hin | Hin]]; [by eapply Hstage | by eapply Hstage |].
  destruct (do_direct_scanout r); [by apply elem_of_nil in Hin|].
  destruct next_frame; simpl in Hin.
  - apply elem_of_cons in Hin as [Hin | Hin]; [discriminate|].
    rewrite !elem_of_app in Hin.
    destruct Hin as [Hin | [Hin | Hin]]; [by eapply Hstage | |].
    + apply list_elem_of_fmap in Hin as (c & Heq & _). discriminate.
    + apply elem_of_cons in Hin as [Hin | Hin]; [discriminate|].
      by eapply Hstage.
  - apply list_elem_of_singleton in Hin. discriminate.
Qed.

(** After [rem_effect hook], no paint calls [hook], in any stage, whether
    the frame is scanned out, skipped or rendered. *)
Theorem removed_hook_never_runs (r : impl) (next_frame : bool)
    (type : output_effect_type_t) (hook : effect_hook_ptr) :
  run_effect type hook
  ∉ paint (with_effects (rem_effect hook (effects_manager r)) r) next_frame.
Proof.
  intros Hin. apply paint_effect_registered in Hin.
  unfold with_effects in Hin. cbn [effects_manager] in Hin.
  rewrite rem_effect_stage in Hin. by apply remove_all_not_elem in Hin.
Qed.



End PaintSpec.

(** ** The postprocessing chain and the scan-out list *)

Module PostprocessingSpec.

Import Hooks Paint.

Lemma run_post_from_length (back : option post_hook_ptr)
    (rest : list post_hook_ptr) (cur : Z) :
  length (run_post_from back rest cur) = length rest.
Proof.
  revert cur. induction rest as [|post rest IH]; intros cur; [done|].
  simpl. by rewrite IH.
Qed.

Lemma run_post_from_lookup (back : option post_hook_ptr)
    (rest : list post_hook_ptr) (cur : Z) (k : nat) (call : post_call) :
  cur = 0 ∨ cur = 1 →
  run_post_from back rest cur !! k = Some call →
  rest !! k = Some (post_hook call)
  ∧ source_idx call = (cur + Z.of_nat k) mod 2
  ∧ destination call
    = if decide (Some (post_hook call) = back) then final_target
      else post_buffer ((cur + Z.of_nat k + 1) mod 2).
Proof.
  revert cur k call.
  induction rest as [|post rest IH]; intros cur k call Hcur Hk; [done|].
  destruct k as [|k]; simpl in Hk.
  - simplify_eq. cbn [post_hook source_idx destination lookup list_lookup].
    change (Z.of_nat 0) with 0. rewrite Z.add_0_r.
    split; [done|].
    split; [destruct Hcur as [-> | ->]; done|].
    destruct (decide _); [done|].
    f_equal. destruct Hcur as [-> | ->]; done.
  - apply IH in Hk as (Hhook & Hsrc & Hdst); [|lia].
    split; [done|].
    assert (∀ z, (1 - cur + z) mod 2 = (cur + (z + 1)) mod 2) as Hflip.
    { intros z. destruct Hcur as [-> | ->]; [f_equal; lia|].
      replace (1 + (z + 1)) with (1 - 1 + z + 1 * 2) by lia.
      by rewrite Z_mod_plus_full. }
    replace (Z.of_nat (S k)) with (Z.of_nat k + 1) by lia.
    split.
    + by rewrite Hsrc, Hflip.
    + rewrite Hdst. destruct (decide _); [done|]. f_equal.
      replace (1 - cur + Z.of_nat k + 1) with (1 - cur + (Z.of_nat k + 1))
        by lia.
      rewrite Hflip. f_equal. lia.
Qed.

(** With no stage registered twice, [run_post_effects] calls the stages in
    their order as one chain: stage [k] reads auxiliary buffer [k mod 2],
    which the stage before it wrote (and the scene pass, for the first);
    the last stage, and no other, writes the final target. *)
Theorem post_effects_chain (p : postprocessing_manager_t) :
  NoDup (post_effects p) →
  let calls := run_post_effects p in
  length calls = length (post_effects p)
  ∧ (post_effects p ≠ [] → get_target_framebuffer p = post_buffer 0)
  ∧ (∀ (k : nat) call, calls !! k = Some call →
       post_effects p !! k = Some (post_hook call)
       ∧ source_idx call = Z.of_nat k mod 2
       ∧ destination call
         = if decide (S k = length (post_effects p)) then final_target
           else post_buffer (Z.of_nat (S k) mod 2)).
Proof.
  intros Hnd. cbv zeta. unfold run_post_effects.
  split; [apply run_post_from_length|]. split.
  { unfold get_target_framebuffer, size.
    destruct (post_effects p); [done|]. done. }
  intros k call Hk.
  apply run_post_from_lookup in Hk as (Hhook & Hsrc & Hdst); [|tauto].
  split; [done|]. split; [done|].
  rewrite Hdst.
  replace (0 + Z.of_nat k + 1) with (Z.of_nat (S k)) by lia.
  destruct (decide (Some (post_hook call) = last (post_effects p)))
    as [Hlast | Hmid]; destruct (decide (S k = length (post_effects p)))
    as [Hend | Hin]; try done.
  - exfalso. rewrite last_lookup in Hlast. symmetry in Hlast.
    pose proof (NoDup_lookup _ _ _ _ Hnd Hhook Hlast) as Heq.
    apply lookup_lt_Some in Hhook. lia.
  - exfalso. apply Hmid. rewrite last_lookup, <- Hend. done.
Qed.

Lemma post_effects_chain_witness :
  let p := {| post_effects := [11%N; 12%N; 13%N] |} in
  length (run_post_effects p) = 3%nat
  ∧ get_target_framebuffer p = post_buffer 0.
Proof.
  intros p.
  destruct (post_effects_chain p) as (Hlen & Htarget & _).
  - apply (bool_decide_unpack (NoDup [11%N; 12%N; 13%N])). vm_compute.
    exact I.
  - split; [exact Hlen|]. apply Htarget. discriminate.
Defined.

(** A stage registered twice breaks the chain: its first call already
    writes the final target. *)
Example post_effects_duplicate :
  destination <$> run_post_effects {| post_effects := [11%N; 12%N; 11%N] |}
  = [final_target; post_buffer 0; final_target].
Proof. reflexivity. Qed.

(** [try_scanout_from_list] answers [SKIP] exactly when every instance
    does, and otherwise gives the answer of the first instance that does
    not skip. *)
Theorem try_scanout_first_answer (instances : list direct_scanout) :
  (try_scanout_from_list instances = SKIP ↔ Forall (eq SKIP) instances)
  ∧ (try_scanout_from_list instances ≠ SKIP →
     ∃ skipped rest,
       instances = skipped ++ try_scanout_from_list instances :: rest
       ∧ Forall (eq SKIP) skipped).
Proof.
  induction instances as [|res instances [IHskip IHfirst]]; simpl.
  - split; [split; [constructor | done] | done].
  - destruct res; simpl.
    + split.
      * rewrite IHskip. split; [by constructor|].
        intros Hall. by apply Forall_cons in Hall as [_ Hall].
      * intros Hne. destruct (IHfirst Hne) as (skipped & rest & Heq & Hall).
        exists (SKIP :: skipped), rest. split; [by rewrite Heq at 1|].
        by constructor.
    + split.
      * split; [done|]. intros Hall.
        by apply Forall_cons in Hall as [Hres _].
      * intros _. exists [], instances. split; [done | constructor].
    + split.
      * split; [done|]. intros Hall.
        by apply Forall_cons in Hall as [Hres _].
      * intros _. exists [], instances. split; [done | constructor].
Qed.

End PostprocessingSpec.

(** ** Removing transformers *)

Module TransformRemovalSpec.

Import TransformStack TransformStackSpec TransformRemoval.

Implicit Types (ts : list added_transformer_t) (t : added_transformer_t)
  (m : transform_manager_node_t).

Lemma filter_keeps_all ts (nd : node_ptr) :
  nd ∉ node <$> ts → filter (fun t => node t ≠ nd) ts = ts.
Proof.
  induction ts as [|t ts IH]; intros Hnot; [done|].
  rewrite fmap_cons in Hnot. apply not_elem_of_cons in Hnot as [Hne Hnot].
  rewrite filter_cons_True by done. by rewrite IH.
Qed.

Lemma filter_sorted ts (nd : node_ptr) :
  StronglySorted z_le ts →
  StronglySorted z_le (filter (fun t => node t ≠ nd) ts).
Proof.
  induction ts as [|t ts IH]; intros Hsorted; [constructor|].
  apply StronglySorted_inv in Hsorted as [Hts Hall].
  rewrite filter_cons. destruct (decide _); [|by apply IH].
  constructor; [by apply IH|].
  apply Forall_forall. intros t' Ht'.
  apply list_elem_of_filter in Ht' as [_ Ht'].
  eapply Forall_forall in Hall; eauto.
Qed.

(** Removing a transformer right after it was added gives back the list of
    transformers and the children of every node: the chosen parent has the
    children it had before, and the removed node has none.  (The parent of
    the added node is the node it was made the only child of; the node was
    not in the list and had no children of its own.) *)
Theorem add_then_rem_transformer m (transformer : node_ptr) (z : Z)
    (nm : string) :
  let parent :=
    match transformers m !! insert_position (transformers m) z with
    | Some t => node t
    | None => self m
    end in
  transformer ≠ parent →
  transformer ∉ node <$> transformers m →
  get_children transformer m = [] →
  ∃ m',
    _rem_transformer (Some transformer) (Some parent)
      (_add_transformer transformer z nm m) = Some m'
    ∧ transformers m' = transformers m
    ∧ (∀ n, get_children n m' = get_children n m).
Proof.
  intros parent Hne Hnew Hleaf. eexists. split; [reflexivity|].
  cbn [transformers _add_transformer]. split.
  - unfold vector_insert. rewrite filter_app, filter_cons_False.
    2: { cbn [node]. intros Hn. by apply Hn. }
    rewrite <- filter_app, take_drop. by apply filter_keeps_all.
  - intros n. unfold get_children, _add_transformer.
    cbn [children transformers self]. fold parent.
    rewrite lookup_insert_eq. cbn [default].
    destruct (decide (n = parent)) as [-> | Hnp].
    + by rewrite lookup_insert_eq.
    + rewrite lookup_insert_ne by done.
      destruct (decide (n = transformer)) as [-> | Hnt].
      * rewrite lookup_insert_eq. cbn [default].
        unfold get_children in Hleaf. by rewrite Hleaf.
      * by rewrite !lookup_insert_ne by done.
Qed.

Lemma add_then_rem_transformer_witness :
  let m := {| self := 0%nat;
              transformers := [ {| node := 1%nat; z_order := 3; name := "U" |} ];
              children := {[ 0%nat := [1%nat]; 1%nat := [9%nat] ]} |} in
  ∃ m',
    _rem_transformer (Some 2%nat) (Some 0%nat)
      (_add_transformer 2%nat 5 "T" m) = Some m'
    ∧ transformers m' = transformers m
    ∧ (∀ n, get_children n m' = get_children n m).
Proof.
  intros m.
  apply (add_then_rem_transformer m 2%nat 5 "T").
  - simpl. discriminate.
  - simpl. intros Hin. apply list_elem_of_singleton in Hin. discriminate.
  - reflexivity.
Defined.

(** [_rem_transformer] on a node with a parent drops every entry of that
    node and nothing else, keeps the order of the others (so a sorted list
    stays sorted), hands the children of the node to its parent and leaves
    the node without children. *)
Theorem rem_transformer_effect m (nd p : node_ptr) :
  nd ≠ p →
  ∃ m',
    _rem_transformer (Some nd) (Some p) m = Some m'
    ∧ (nd ∉ node <$> transformers m')
    ∧ (∀ t, t ∈ transformers m' ↔ t ∈ transformers m ∧ node t ≠ nd)
    ∧ (StronglySorted z_le (transformers m) →
       StronglySorted z_le (transformers m'))
    ∧ get_children p m' = get_children nd m
    ∧ get_children nd m' = []
    ∧ (∀ n, n ≠ nd → n ≠ p → get_children n m' = get_children n m).
Proof.
  intros Hne. eexists. split; [reflexivity|].
  cbn [transformers]. split; [|split; [|split; [|split; [|split]]]].
  - intros Hin. apply list_elem_of_fmap in Hin as (t & -> & Ht).
    apply list_elem_of_filter in Ht as [Hnode _]. by apply Hnode.
  - intros t. rewrite list_elem_of_filter. tauto.
  - apply filter_sorted.
  - unfold get_children at 1. cbn [children]. by rewrite lookup_insert_eq.
  - unfold get_children. cbn [children].
    rewrite lookup_insert_ne by done. by rewrite lookup_insert_eq.
  - intros n Hn1 Hn2. unfold get_children. cbn [children].
    by rewrite !lookup_insert_ne by done.
Qed.

Lemma rem_transformer_effect_witness :
  let m := {| self := 0%nat;
              transformers := [ {| node := 1%nat; z_order := 3; name := "U" |} ];
              children := {[ 0%nat := [1%nat]; 1%nat := [9%nat] ]} |} in
  ∃ m',
    _rem_transformer (Some 1%nat) (Some 0%nat) m = Some m'
    ∧ get_children 0%nat m' = [9%nat]
    ∧ transformers m' = [].
Proof.
  intros m.
  destruct (rem_transformer_effect m 1%nat 0%nat) as (m' & Heq & _ & _ & _
    & Hkids & _); [discriminate|].
  exists m'. split; [exact Heq|]. split.
  - rewrite Hkids. reflexivity.
  - injection Heq as <-. reflexivity.
Defined.

End TransformRemovalSpec.

(** ** The forward mapping of the 3D transformer *)

Module View3DGlobalSpec.

Import Geometry View3D View3DGlobal View3DSpec.
#[local] Open Scope R_scope.

(** The two changes of coordinates undo each other. *)
Lemma relative_of_absolute (g : geometry_t) (p : pointf_t) :
  get_center_relative_coords g (get_absolute_coords_from_relative g p) = p.
Proof.
  destruct p. unfold get_center_relative_coords,
    get_absolute_coords_from_relative. cbn [px py]. f_equal; ring.
Qed.

Lemma absolute_of_relative (g : geometry_t) (p : pointf_t) :
  get_absolute_coords_from_relative g (get_center_relative_coords g p) = p.
Proof.
  destruct p. unfold get_center_relative_coords,
    get_absolute_coords_from_relative. cbn [px py]. f_equal; ring.
Qed.

Lemma glm_inverse_left (a inv : dmat2) (v : R * R) :
  glm_inverse a = Some inv ->
  dmat2_apply inv (dmat2_apply a v) = v.
Proof.
  unfold glm_inverse, glm_determinant.
  destruct (Req_dec_T _ 0) as [Hz | Hnz]; [discriminate|].
  intros Heq. injection Heq as <-. destruct v as [v1 v2].
  unfold dmat2_apply. cbn [m00 m01 m10 m11 fst snd].
  f_equal; field; exact Hnz.
Qed.

(** When the homogeneous [w] of the transformed point has magnitude below
    [1e-6], [to_global] divides by nothing and returns the centre of the
    children's bounding box. *)
Theorem to_global_degenerate (t : view_3d_transformer_t) (point : pointf_t) :
  let p := get_center_relative_coords (children_bounding_box t) point in
  let v := mat4_apply (calculate_total_transform t)
             {| vx := 1 * px p; vy := 1 * py p; vz := 0; vw := 1 |} in
  Rabs (vw v) < 1 / 1000000 ->
  to_global t point = get_center_box (children_bounding_box t).
Proof.
  intros p v Hw. unfold to_global. fold p. fold v.
  destruct (Rlt_dec (Rabs (vw v)) singular_threshold) as [_ | Hn];
    [|contradiction].
  unfold get_absolute_coords_from_relative, get_center_box. cbn [px py vx vy].
  f_equal; ring.
Qed.

(** Where the homogeneous [w] of a point and the determinant of the
    system at its image are both at least [1e-6] in magnitude, [to_local]
    undoes [to_global]. *)
Theorem to_local_to_global_3d (invalid_coordinate : R)
    (t : view_3d_transformer_t) (point : pointf_t) :
  let tr := calculate_total_transform t in
  let p := get_center_relative_coords (children_bounding_box t) point in
  let v := mat4_apply tr {| vx := 1 * px p; vy := 1 * py p; vz := 0; vw := 1 |} in
  let q := {| px := vx v / vw v; py := vy v / vw v |} in
  1 / 1000000 <= Rabs (vw v) ->
  1 / 1000000 <= Rabs (glm_determinant (system_matrix tr q)) ->
  to_local invalid_coordinate t (to_global t point) = Some point.
Proof.
  intros tr p v q Hw Hdet.
  assert (vw v <> 0) as Hw0.
  { intros Hz. rewrite Hz, Rabs_R0 in Hw. lra. }
  assert (get_center_relative_coords (children_bounding_box t)
            (to_global t point) = q) as Hq.
  { unfold to_global. fold tr. fold p. fold v.
    destruct (Rlt_dec (Rabs (vw v)) singular_threshold) as [Hlt | _].
    - unfold singular_threshold in Hlt. lra.
    - now rewrite relative_of_absolute. }
  unfold to_local. fold tr. rewrite Hq.
  destruct (Rlt_dec (Rabs (glm_determinant (system_matrix tr q)))
              singular_threshold) as [Hlt | _].
  { unfold singular_threshold in Hlt. lra. }
  destruct (glm_inverse_regular (system_matrix tr q)) as [ia Hia];
    [exact Hdet|].
  rewrite Hia.
  assert ((tr 3%nat 0%nat - px q * tr 3%nat 3%nat,
           tr 3%nat 1%nat - py q * tr 3%nat 3%nat)
          = dmat2_apply (system_matrix tr q) (px p, py p)) as ->.
  { unfold q, dmat2_apply, system_matrix.
    cbn [m00 m01 m10 m11 fst snd px py].
    unfold v, mat4_apply in *. cbn [vx vy vz vw] in *.
    f_equal; field; intros Hz; apply Hw0; (etransitivity; [|exact Hz]); ring. }
  rewrite (glm_inverse_left _ _ _ Hia). cbn [fst snd].
  replace {| px := px p; py := py p |} with p by (now destruct p).
  unfold p. now rewrite absolute_of_relative.
Qed.

Lemma to_global_degenerate_witness :
  let flat :=
    {| children_bounding_box :=
         {| x := 0; y := 0; width := 100; height := 50 |};
       translation := glm_scale 1 1 1;
       view_proj := glm_scale 1 1 1;
       rotation := glm_scale 1 1 1;
       scaling := fun _ _ => 0 |} in
  to_global flat {| px := 10; py := 20 |} = {| px := 0 + 100 / 2; py := 0 + 50 / 2 |}.
Proof.
  intros flat.
  apply (to_global_degenerate flat {| px := 10; py := 20 |}).
  unfold mat4_apply, calculate_total_transform, mat4_mul, glm_scale, flat.
  cbn.
  match goal with |- Rabs ?e < _ => replace e with 0 by ring end.
  rewrite Rabs_R0. lra.
Defined.

Lemma to_local_to_global_3d_witness :
  let plain :=
    {| children_bounding_box :=
         {| x := 0; y := 0; width := 100; height := 50 |};
       translation := glm_scale 1 1 1;
       view_proj := glm_scale 1 1 1;
       rotation := glm_scale 1 1 1;
       scaling := glm_scale 2 2 1 |} in
  to_local (-1) plain (to_global plain {| px := 10; py := 20 |})
  = Some {| px := 10; py := 20 |}.
Proof.
  intros plain.
  apply (to_local_to_global_3d (-1) plain {| px := 10; py := 20 |}).
  - unfold mat4_apply, calculate_total_transform, mat4_mul, glm_scale, plain.
    cbn.
    match goal with |- _ <= Rabs ?e => replace e with 1 by ring end.
    rewrite Rabs_R1. lra.
  - unfold glm_determinant, system_matrix, mat4_apply,
      calculate_total_transform, mat4_mul, glm_scale, plain.
    cbn.
    match goal with |- _ <= Rabs ?e => replace e with 4 end.
    + rewrite Rabs_pos_eq; lra.
    + field.
      match goal with
      | |- Rmax ?a ?b <> 0 => pose proof (Rmax_r a b); lra
      end.
Defined.

End View3DGlobalSpec.

(** ** Bounding boxes of transformed nodes *)

Module NodeBBoxSpec.

Import Geometry NodeBBox.
#[local] Open Scope R_scope.

Lemma floor_int_le (r : R) : IZR (floor_int r) <= r.
Proof. unfold floor_int. destruct (base_Int_part r) as [H _]. exact H. Qed.

Lemma ceil_int_ge (r : R) : r <= IZR (ceil_int r).
Proof.
  unfold ceil_int. rewrite opp_IZR.
  destruct (base_Int_part (- r)) as [H _]. lra.
Qed.

Lemma min4_le (a b c d : R) :
  min4 a b c d <= a /\ min4 a b c d <= b /\ min4 a b c d <= c
  /\ min4 a b c d <= d.
Proof.
  unfold min4.
  pose proof (Rmin_l a (Rmin b (Rmin c d))).
  pose proof (Rmin_r a (Rmin b (Rmin c d))).
  pose proof (Rmin_l b (Rmin c d)).
  pose proof (Rmin_r b (Rmin c d)).
  pose proof (Rmin_l c d). pose proof (Rmin_r c d).
  repeat split; lra.
Qed.

Lemma max4_ge (a b c d : R) :
  a <= max4 a b c d /\ b <= max4 a b c d /\ c <= max4 a b c d
  /\ d <= max4 a b c d.
Proof.
  unfold max4.
  pose proof (Rmax_l a (Rmax b (Rmax c d))).
  pose proof (Rmax_r a (Rmax b (Rmax c d))).
  pose proof (Rmax_l b (Rmax c d)).
  pose proof (Rmax_r b (Rmax c d)).
  pose proof (Rmax_l c d). pose proof (Rmax_r c d).
  repeat split; lra.
Qed.

(** An affine function on a rectangle lies between the least and the
    greatest of its values at the corners. *)
Lemma affine_in_box (A B C x0 x1 y0 y1 X Y : R) :
  x0 <= X <= x1 -> y0 <= Y <= y1 ->
  let f u v := A * u + B * v + C in
  min4 (f x0 y0) (f x1 y0) (f x0 y1) (f x1 y1) <= f X Y
  /\ f X Y <= max4 (f x0 y0) (f x1 y0) (f x0 y1) (f x1 y1).
Proof.
  intros HX HY f.
  destruct (min4_le (f x0 y0) (f x1 y0) (f x0 y1) (f x1 y1))
    as (H1 & H2 & H3 & H4).
  destruct (max4_ge (f x0 y0) (f x1 y0) (f x0 y1) (f x1 y1))
    as (G1 & G2 & G3 & G4).
  unfold f in *.
  destruct (Rle_dec 0 A) as [HA | HA], (Rle_dec 0 B) as [HB | HB].
  - assert (A * x0 <= A * X) by (apply Rmult_le_compat_l; lra).
    assert (A * X <= A * x1) by (apply Rmult_le_compat_l; lra).
    assert (B * y0 <= B * Y) by (apply Rmult_le_compat_l; lra).
    assert (B * Y <= B * y1) by (apply Rmult_le_compat_l; lra).
    lra.
  - assert (A * x0 <= A * X) by (apply Rmult_le_compat_l; lra).
    assert (A * X <= A * x1) by (apply Rmult_le_compat_l; lra).
    assert (B * y1 <= B * Y) by (apply Rmult_le_compat_neg_l; lra).
    assert (B * Y <= B * y0) by (apply Rmult_le_compat_neg_l; lra).
    lra.
  - assert (A * x1 <= A * X) by (apply Rmult_le_compat_neg_l; lra).
    assert (A * X <= A * x0) by (apply Rmult_le_compat_neg_l; lra).
    assert (B * y0 <= B * Y) by (apply Rmult_le_compat_l; lra).
    assert (B * Y <= B * y1) by (apply Rmult_le_compat_l; lra).
    lra.
  - assert (A * x1 <= A * X) by (apply Rmult_le_compat_neg_l; lra).
    assert (A * X <= A * x0) by (apply Rmult_le_compat_neg_l; lra).
    assert (B * y1 <= B * Y) by (apply Rmult_le_compat_neg_l; lra).
    assert (B * Y <= B * y0) by (apply Rmult_le_compat_neg_l; lra).
    lra.
Qed.

Lemma to_global_affine (t : View2D.view_2d_transformer_t) :
  exists A B C A' B' C',
    forall X Y,
      px (View2D.to_global t {| px := X; py := Y |}) = A * X + B * Y + C
      /\ py (View2D.to_global t {| px := X; py := Y |}) = A' * X + B' * Y + C'.
Proof.
  exists (cos (- View2D.angle t) * View2D.scale_x t),
         (- sin (- View2D.angle t) * View2D.scale_y t),
         (px (View2D.to_global t {| px := 0; py := 0 |})),
         (sin (- View2D.angle t) * View2D.scale_x t),
         (cos (- View2D.angle t) * View2D.scale_y t),
         (py (View2D.to_global t {| px := 0; py := 0 |})).
  intros X Y. unfold View2D.to_global, View2D.rotate_xy, point_add, point_sub.
  cbn [px py]. split; ring.
Qed.

(** The box of [get_bbox_for_node] spans the four transformed corners,
    whatever the mapping of the node is. *)
Theorem bbox_spans_corners (tg : pointf_t -> pointf_t) (box : geometry_t) :
  let p1 := tg {| px := IZR (x box); py := IZR (y box) |} in
  let p2 := tg {| px := IZR (x box + width box); py := IZR (y box) |} in
  let p3 := tg {| px := IZR (x box); py := IZR (y box + height box) |} in
  let p4 := tg {| px := IZR (x box + width box);
                  py := IZR (y box + height box) |} in
  let bb := get_bbox_for_node tg box in
  IZR (x bb) <= min4 (px p1) (px p2) (px p3) (px p4)
  /\ max4 (px p1) (px p2) (px p3) (px p4) <= IZR (x bb + width bb)
  /\ IZR (y bb) <= min4 (py p1) (py p2) (py p3) (py p4)
  /\ max4 (py p1) (py p2) (py p3) (py p4) <= IZR (y bb + height bb).
Proof.
  cbv zeta. unfold get_bbox_for_node. cbn [x y width height].
  rewrite !Zplus_minus.
  repeat split; first [apply floor_int_le | apply ceil_int_ge].
Qed.

(** The bounding box of a 2D transformer contains the image under
    [to_global] of every point of the children's bounding box. *)
Theorem bounding_box_contains_image (t : View2D.view_2d_transformer_t)
    (box : geometry_t) (P : pointf_t) :
  IZR (x box) <= px P <= IZR (x box + width box) ->
  IZR (y box) <= py P <= IZR (y box + height box) ->
  let bb := view_2d_bounding_box t box in
  let Q := View2D.to_global t P in
  IZR (x bb) <= px Q <= IZR (x bb + width bb)
  /\ IZR (y bb) <= py Q <= IZR (y bb + height bb).
Proof.
  intros HX HY bb Q.
  destruct (to_global_affine t) as (A & B & C & A' & B' & C' & Haff).
  destruct P as [X Y]. cbn [px py] in HX, HY.
  pose proof (affine_in_box A B C _ _ _ _ X Y HX HY) as [Hxlo Hxhi].
  pose proof (affine_in_box A' B' C' _ _ _ _ X Y HX HY) as [Hylo Hyhi].
  cbv zeta in Hxlo, Hxhi, Hylo, Hyhi.
  rewrite <- !(proj1 (Haff _ _)) in Hxlo, Hxhi.
  rewrite <- !(proj2 (Haff _ _)) in Hylo, Hyhi.
  fold Q in Hxlo, Hxhi, Hylo, Hyhi.
  pose proof (bbox_spans_corners (View2D.to_global t) box) as (B1 & B2 & B3 & B4).
  fold (view_2d_bounding_box t box) in B1, B2, B3, B4. fold bb in B1, B2, B3, B4.
  lra.
Qed.

Lemma bounding_box_contains_image_witness :
  let t := {| View2D.view := view_toplevel
                 {| x := 10; y := 20; width := 100; height := 50 |};
              View2D.scale_x := 2; View2D.scale_y := 3; View2D.angle := 1;
              View2D.translation_x := 5; View2D.translation_y := 7 |} in
  let box := {| x := 10; y := 20; width := 100; height := 50 |} in
  let bb := view_2d_bounding_box t box in
  let Q := View2D.to_global t {| px := 30; py := 40 |} in
  IZR (x bb) <= px Q <= IZR (x bb + width bb)
  /\ IZR (y bb) <= py Q <= IZR (y bb + height bb).
Proof.
  intros t box.
  apply (bounding_box_contains_image t box {| px := 30; py := 40 |});
    subst box; cbn [x y width height px py]; rewrite plus_IZR; lra.
Defined.

End NodeBBoxSpec.

(** ** The crossfade node and the opacity of its snapshot *)

Module CrossfadeNodeSpec.

Import Geometry CrossfadeNode Crossfade CrossfadeSpec.
#[local] Open Scope R_scope.

(** With its inherited angle at 0, a crossfade node maps the rectangle of
    the view's current geometry onto the displayed geometry: the point at
    the fractions [(s, u)] of the one goes to the point at the same
    fractions of the other. *)
Theorem crossfade_maps_onto_displayed (c : crossfade_node_t) (s u : R) :
  inherited_angle c = 0 ->
  width (current_geometry c) <> 0%Z ->
  height (current_geometry c) <> 0%Z ->
  let cur := current_geometry c in
  let disp := displayed_geometry c in
  View2D.to_global (as_view_2d c)
    {| px := IZR (x cur) + s * IZR (width cur);
       py := IZR (y cur) + u * IZR (height cur) |}
  = {| px := IZR (x disp) + s * IZR (width disp);
       py := IZR (y disp) + u * IZR (height disp) |}.
Proof.
  intros Hangle Hw Hh cur disp. subst cur disp.
  assert (IZR (width (current_geometry c)) <> 0) as Hw' by (now apply not_0_IZR).
  assert (IZR (height (current_geometry c)) <> 0) as Hh' by (now apply not_0_IZR).
  unfold View2D.to_global, View2D.rotate_xy, as_view_2d, point_add, point_sub,
    get_scale_x, get_scale_y, get_translation_x, get_translation_y,
    get_center, get_center_box.
  cbn [px py View2D.view View2D.scale_x View2D.scale_y View2D.angle
       View2D.translation_x View2D.translation_y].
  rewrite Hangle, Ropp_0, cos_0, sin_0.
  f_equal; field; split; assumption.
Qed.


Lemma crossfade_maps_onto_displayed_witness :
  let c := {| current_geometry :=
                {| x := 0; y := 0; width := 200; height := 100 |};
              displayed_geometry :=
                {| x := 50; y := 60; width := 100; height := 50 |};
              inherited_angle := 0 |} in
  View2D.to_global (as_view_2d c)
    {| px := 0 + 1 * 200; py := 0 + 1 * 100 |}
  = {| px := 50 + 1 * 100; py := 60 + 1 * 50 |}.
Proof.
  intros c.
  apply (crossfade_maps_onto_displayed c 1 1); simpl;
    [reflexivity | discriminate | discriminate].
Defined.

Lemma blend_monotone (a b : R) :
  0 <= a -> a <= b -> b <= 1 -> 0 <= blend a /\ blend a <= blend b /\ blend b <= 1.
Proof.
  intros Ha Hab Hb.
  assert (forall z, 0 <= z -> z < 1 / 2 -> 0 <= blend z <= 1 / 2) as Hlow.
  { intros z Hz0 Hz. rewrite blend_lower by exact Hz. unfold lower_piece.
    pose proof (sqrt_pos (z * 2)).
    assert (sqrt (z * 2) <= sqrt 1) by (apply sqrt_le_1_alt; lra).
    rewrite sqrt_1 in *. lra. }
  assert (forall z, 1 / 2 <= z -> z <= 1 -> 1 / 2 <= blend z <= 1) as Hup.
  { intros z Hz0 Hz. rewrite blend_upper by exact Hz0. unfold upper_piece.
    nra. }
  destruct (Rlt_dec a (1 / 2)) as [Hal | Hah],
           (Rlt_dec b (1 / 2)) as [Hbl | Hbh].
  - pose proof (Hlow a Ha Hal). pose proof (Hlow b ltac:(lra) Hbl).
    split; [lra|]. split; [|lra].
    rewrite !blend_lower by assumption. unfold lower_piece.
    assert (sqrt (a * 2) <= sqrt (b * 2)) by (apply sqrt_le_1_alt; lra). lra.
  - pose proof (Hlow a Ha Hal). pose proof (Hup b ltac:(lra) Hb). lra.
  - lra.
  - pose proof (Hup a ltac:(lra) ltac:(lra)). pose proof (Hup b ltac:(lra) Hb).
    split; [lra|]. split; [|lra].
    rewrite !blend_upper by lra. unfold upper_piece. nra.
Qed.

(** On [[0, 1]] the opacity of the snapshot is within [[0, 1]] and never
    grows as the progress advances. *)
Theorem render_opacity_fades (a b : R) :
  0 <= a -> a <= b -> b <= 1 ->
  0 <= render_opacity b /\ render_opacity b <= render_opacity a
  /\ render_opacity a <= 1.
Proof.
  intros Ha Hab Hb. unfold render_opacity.
  pose proof (blend_monotone a b Ha Hab Hb). lra.
Qed.

Lemma render_opacity_fades_witness :
  0 <= render_opacity (3 / 4)
  /\ render_opacity (3 / 4) <= render_opacity (1 / 4)
  /\ render_opacity (1 / 4) <= 1.
Proof.
  apply render_opacity_fades; lra.
Defined.

End CrossfadeNodeSpec.

(** ** The 2D transformer, from global to local and back *)

Module View2DMore.

Import Geometry View2D View2DSpec.
#[local] Open Scope R_scope.

Lemma to_local_to_global_witness :
  let t := {| view := view_other
                        {| x := 10; y := 20; width := 100; height := 50 |};
              scale_x := 2; scale_y := 3; angle := 1;
              translation_x := 5; translation_y := 7 |} in
  to_local t (to_global t {| px := 30; py := 40 |}) = {| px := 30; py := 40 |}.
Proof.
  intros t. apply to_local_to_global; simpl; lra.
Defined.

End View2DMore.

(** ** Workspace boxes *)

Module WorkspacesSpec.

Import Geometry Workspaces.

(** When the screen size is the size of the relative geometry, the box
    [damage_whole] damages contains the box of every workspace of the grid,
    and the box of the current workspace starts at the origin. *)
Theorem damage_whole_covers_workspaces (o : output_state) (ws : Z * Z) :
  screen_width o = width (relative_geometry o) ->
  screen_height o = height (relative_geometry o) ->
  0 <= screen_width o -> 0 <= screen_height o ->
  0 <= ws.1 < grid_width o -> 0 <= ws.2 < grid_height o ->
  let whole := damage_whole_box o in
  let box := get_ws_box o ws in
  x whole <= x box /\ x box + width box <= x whole + width whole
  /\ y whole <= y box /\ y box + height box <= y whole + height whole
  /\ x (get_ws_box o (current_workspace o)) = 0
  /\ y (get_ws_box o (current_workspace o)) = 0.
Proof.
  intros Hw Hh Hw0 Hh0 Hx Hy. cbv zeta.
  unfold damage_whole_box, get_ws_box. cbn [x y width height].
  rewrite <- Hw, <- Hh. repeat split; nia.
Qed.

Lemma damage_whole_covers_workspaces_witness :
  let o := {| current_workspace := (1, 0); grid_width := 3; grid_height := 3;
              relative_geometry :=
                {| x := 0; y := 0; width := 1920; height := 1080 |};
              screen_width := 1920; screen_height := 1080 |} in
  x (damage_whole_box o) <= x (get_ws_box o (2, 2)).
Proof.
  intros o.
  apply (damage_whole_covers_workspaces o (2, 2)); simpl; lia.
Defined.

End WorkspacesSpec.

(** ** Constant redraw *)

Module RedrawCounterSpec.

Import RedrawCounter.

Lemma set_redraw_always_nonneg (always : bool) (counter : Z) :
  0 <= counter -> 0 <= (set_redraw_always always counter).1.
Proof.
  intros Hc. unfold set_redraw_always.
  destruct (Z.ltb_spec 1 (counter + (if always then 1 else -1)));
    [simpl; lia|].
  destruct (Z.ltb_spec (counter + (if always then 1 else -1)) 0);
    simpl; lia.
Qed.

(** From a counter that is not negative, no run of calls makes it negative
    (a release without a request is absorbed), and a call schedules a
    repaint exactly when the counter it leaves is 0 or 1 without having gone
    below 0: a request at counter 0, or a release at counter 1 or 2. *)
Theorem redraw_counter_transitions (calls : list bool) (always : bool)
    (counter : Z) :
  0 <= counter ->
  0 <= run calls counter
  /\ ((set_redraw_always always (run calls counter)).2 = true
      <-> (always = true /\ run calls counter = 0)
          \/ (always = false /\ 1 <= run calls counter <= 2)).
Proof.
  intros Hc.
  assert (0 <= run calls counter) as Hrun.
  { revert counter Hc. induction calls as [|a calls IH]; intros c Hc;
      [exact Hc|].
    simpl. apply IH. now apply set_redraw_always_nonneg. }
  split; [exact Hrun|].
  revert Hrun. generalize (run calls counter). intros c Hc'.
  unfold set_redraw_always.
  destruct always;
    (match goal with
     | |- context [1 <? ?e] =>
         destruct (Z.ltb_spec 1 e) as [H1 | H1];
         [|destruct (Z.ltb_spec e 0) as [H2 | H2]]
     end);
    simpl;
    (split; [intros Ht | intros [[Ha Hb] | [Ha Hb]]]);
    try discriminate; try lia; try reflexivity;
    try (left; split; [reflexivity | lia]);
    try (right; split; [reflexivity | lia]).
Qed.

Lemma redraw_counter_transitions_witness :
  0 <= run [true; true; false] 0
  /\ ((set_redraw_always false (run [true; true; false] 0)).2 = true
      <-> (false = true /\ run [true; true; false] 0 = 0)
          \/ (false = false /\ 1 <= run [true; true; false] 0 <= 2)).
Proof.
  apply redraw_counter_transitions. lia.
Defined.

End RedrawCounterSpec.
